(** * RayTracingInOneWeekend, chapter 6 (metal): the ray-colour integrator

    A shallow embedding of [src/6_metal/main.cpp] and of the iterator of
    [gm/types/vec2iRange.h].

    - [float] and [double] are IEEE 754 binary32 and binary64, taken from the
      executable specification of the Standard Library ([SpecFloat]).
    - [int] is a 32-bit two's complement integer carried by [Z].
    - Virtual calls ([SceneObject::Hit], [Material::Scatter]) are records of
      functions; the process-wide state they may read or write (the random
      generator) is an explicit [World] threaded through every call.
    - The recursion of [ComputeRayColor] is driven by fuel: the fuel counts
      the nesting depth of the calls. *)

From Stdlib Require Import ZArith List Bool Lia Permutation String.
From Stdlib Require Import Floats.SpecFloat.
Import ListNotations.

Local Open Scope Z_scope.

(* ================================================================== *)
(** * Machine numbers *)

(** ** [float]: IEEE 754 binary32 *)
Module F32.
Definition prec : Z := 24.
Definition emax : Z := 128.

Definition float : Type := spec_float.

Definition valid (x : float) : bool := valid_binary prec emax x.

Definition mul : float -> float -> float := SFmul prec emax.
Definition add : float -> float -> float := SFadd prec emax.
Definition sub : float -> float -> float := SFsub prec emax.
Definition div : float -> float -> float := SFdiv prec emax.
Definition sqrt : float -> float := SFsqrt prec emax.
Definition ltb : float -> float -> bool := SFltb.
Definition leb : float -> float -> bool := SFleb.
Definition eqb : float -> float -> bool := SFeqb.

(** The value [m * 2^e], rounded to nearest even. *)
Definition of_scaled (m e : Z) : float := binary_normalize prec emax m e false.

(** An [int] converted to [float]. *)
Definition of_int (n : Z) : float := of_scaled n 0.

Definition zero : float := S754_zero false.
Definition one : float := of_int 1.
Definition half : float := of_scaled 1 (-1).

(** [std::numeric_limits< float >::max()]. *)
Definition max_value : float := SFmax_float prec emax.
End F32.

(** ** [double]: IEEE 754 binary64 *)
Module F64.
Definition prec : Z := 53.
Definition emax : Z := 1024.

Definition double : Type := spec_float.

Definition add : double -> double -> double := SFadd prec emax.
Definition div : double -> double -> double := SFdiv prec emax.
Definition sqrt : double -> double := SFsqrt prec emax.

Definition of_scaled (m e : Z) : double := binary_normalize prec emax m e false.
Definition of_int (n : Z) : double := of_scaled n 0.

(** A decimal literal [n / d], correctly rounded. *)
Definition of_ratio (n d : Z) : double := div (of_int n) (of_int d).

Definition one : double := of_int 1.
End F64.

(** Implicit conversions between the two formats. *)
Definition double_of_float (x : F32.float) : F64.double :=
  match x with
  | S754_finite s m e => binary_normalize F64.prec F64.emax (cond_Zopp s (Zpos m)) e s
  | _ => x
  end.

Definition float_of_double (x : F64.double) : F32.float :=
  match x with
  | S754_finite s m e => binary_normalize F32.prec F32.emax (cond_Zopp s (Zpos m)) e s
  | _ => x
  end.

(** ** [int]: 32-bit two's complement

    An overflowing [int] operation is undefined in C++; [wrap] gives it the
    two's complement result.  Every property below that depends on the
    value of an [int] operation is stated where it does not overflow. *)
Module Int.
Definition min_value : Z := - 2 ^ 31.
Definition max_value : Z := 2 ^ 31 - 1.

Definition in_range (n : Z) : Prop := min_value <= n <= max_value.

Definition wrap (n : Z) : Z := (n + 2 ^ 31) mod 2 ^ 32 - 2 ^ 31.

Definition add (a b : Z) : Z := wrap (a + b).
Definition sub (a b : Z) : Z := wrap (a - b).
End Int.

(* ================================================================== *)
(** * The [gm] value types used by the integrator *)

Module gm.
Import F32.

(** [gm::Vec3f]: [e0], [e1], [e2] are [operator[]] at 0, 1 and 2. *)
Record Vec3f : Type := mkVec3f { e0 : float; e1 : float; e2 : float }.

Definition X (v : Vec3f) : float := e0 v.
Definition Y (v : Vec3f) : float := e1 v.

(** [gm::Ray]. *)
Record Ray : Type := mkRay { Origin : Vec3f; Direction : Vec3f }.

(** [gm::FloatRange]. *)
Record FloatRange : Type := mkFloatRange { Min : float; Max : float }.

(** [gm::Vec2i]. *)
Record Vec2i : Type := mkVec2i { i0 : Z; i1 : Z }.
End gm.
Import gm.

(** [c_normalizedRange]. *)
Definition c_normalizedRange : FloatRange := mkFloatRange F32.zero F32.one.

(** The literals of [ComputeRayColor]. *)
Definition black : Vec3f := mkVec3f (F32.of_int 0) (F32.of_int 0) (F32.of_int 0).

Definition white : Vec3f :=
  mkVec3f (float_of_double (F64.of_ratio 1 1))
          (float_of_double (F64.of_ratio 1 1))
          (float_of_double (F64.of_ratio 1 1)).

Definition skyBlue : Vec3f :=
  mkVec3f (float_of_double (F64.of_ratio 5 10))
          (float_of_double (F64.of_ratio 7 10))
          (float_of_double (F64.of_ratio 1 1)).

(** [0.001f]. *)
Definition shadowAcneBound : F32.float := F32.div (F32.of_int 1) (F32.of_int 1000).

(* ================================================================== *)
(** * The [raytrace] interfaces and the integrator *)

Section Integrator.

(** The process-wide mutable state the virtual calls may use (the state of
    the random number generator behind [gm::RandomNumber]). *)
Context {World : Type}.

(** [raytrace::MaterialSharedPtr]: what [HitRecord::m_material] holds. *)
Context {MaterialPtr : Type}.

(** Modelled from the spec: [raytrace::HitRecord] (hitRecord.h is not among
    the sources) holds the parameter along the ray, the point, the outward
    normal and a reference to the material at the hit point; [main.cpp]
    reads [m_magnitude] and [m_material]. *)
Record HitRecord : Type := mkHitRecord {
  m_position : Vec3f;
  m_normal : Vec3f;
  m_magnitude : F32.float;
  m_material : MaterialPtr
}.

(** Modelled from the spec: [raytrace::Material] (material.h is not among
    the sources) is the interface of the materials.  [Scatter( i_ray,
    i_hitRecord, o_attenuation, o_scatteredRay )] returns its [bool]
    together with the two out-parameters. *)
Record Material : Type := mkMaterial {
  Scatter : Ray -> HitRecord -> World -> (bool * Vec3f * Ray) * World
}.

(** Modelled from the spec: [raytrace::SceneObject] (sceneObject.h is not
    among the sources) is the interface of the surfaces.  [Hit( i_ray,
    i_magnitudeRange, o_record )] returns its [bool] together with the
    record it was handed, as it left it. *)
Record SceneObject : Type := mkSceneObject {
  Hit : Ray -> FloatRange -> HitRecord -> World -> (bool * HitRecord) * World
}.

Definition SceneObjectPtrs : Type := list SceneObject.

(** What [ComputeRayColor] takes from headers that are not among the
    sources: the dereference of a material pointer,
    [gm::LinearInterpolation] on [Vec3f], and the default-constructed
    [HitRecord]. *)
Record Collaborators : Type := mkCollaborators {
  material_at : MaterialPtr -> Material;
  LinearInterpolation : Vec3f -> Vec3f -> F32.float -> Vec3f;
  defaultHitRecord : HitRecord
}.

Variable env : Collaborators.

(** The locals of the intersection loop. *)
Record ScanState : Type := mkScanState {
  record : HitRecord;
  objectHit : bool;
  nearestHitMagnitude : F32.float
}.

Definition scanStart : ScanState :=
  mkScanState (defaultHitRecord env) false F32.max_value.

(** One iteration of the range-for over the scene objects. *)
Definition scanStep (i_ray : Ray) (st : ScanState * World) (sceneObjectPtr : SceneObject)
  : ScanState * World :=
  let '(s, w) := st in
  let magnitudeRange := mkFloatRange shadowAcneBound (nearestHitMagnitude s) in
  let '((hit, record'), w') := Hit sceneObjectPtr i_ray magnitudeRange (record s) w in
  if hit
  then (mkScanState record' true (m_magnitude record'), w')
  else (mkScanState record' (objectHit s) (nearestHitMagnitude s), w').

Definition scanFrom (i_ray : Ray) (i_sceneObjectPtrs : SceneObjectPtrs)
           (st : ScanState * World) : ScanState * World :=
  fold_left (scanStep i_ray) i_sceneObjectPtrs st.

Definition scan (i_ray : Ray) (i_sceneObjectPtrs : SceneObjectPtrs) (w : World)
  : ScanState * World :=
  scanFrom i_ray i_sceneObjectPtrs (scanStart, w).

(** [float weight = 0.5f * i_ray.Direction().Y() + 1.0;]: the product is a
    [float], the sum with the [double] literal is a [double], the
    initialisation rounds it back to [float]. *)
Definition backgroundWeight (i_ray : Ray) : F32.float :=
  float_of_double
    (F64.add (double_of_float (F32.mul F32.half (Y (Direction i_ray))))
             (F64.of_ratio 1 1)).

Definition backgroundColor (i_ray : Ray) : Vec3f :=
  LinearInterpolation env white skyBlue (backgroundWeight i_ray).

(** The aggregate colour of a scattered ray. *)
Definition attenuate (attenuation descendentColor : Vec3f) : Vec3f :=
  mkVec3f (F32.mul (e0 attenuation) (e0 descendentColor))
          (F32.mul (e1 attenuation) (e1 descendentColor))
          (F32.mul (e2 attenuation) (e2 descendentColor)).

(** [ComputeRayColor].  [None] is returned when the nesting of the calls
    exceeds [fuel]. *)
Fixpoint ComputeRayColor (fuel : nat) (i_ray : Ray) (i_numRayBounces : Z)
         (i_sceneObjectPtrs : SceneObjectPtrs) (w : World) {struct fuel}
  : option (Vec3f * World) :=
  match fuel with
  | O => None
  | S fuel' =>
    if i_numRayBounces =? 0
    then Some (black, w)
    else
      let '(s, w1) := scan i_ray i_sceneObjectPtrs w in
      if objectHit s
      then
        let '((scattered, attenuation, scatteredRay), w2) :=
          Scatter (material_at env (m_material (record s))) i_ray (record s) w1 in
        if scattered
        then
          match ComputeRayColor fuel' scatteredRay (Int.sub i_numRayBounces 1)
                                i_sceneObjectPtrs w2 with
          | Some (descendentColor, w3) => Some (attenuate attenuation descendentColor, w3)
          | None => None
          end
        else Some (black, w2)
      else Some (backgroundColor i_ray, w1)
  end.

End Integrator.

Arguments HitRecord : clear implicits.
Arguments Material : clear implicits.
Arguments SceneObject : clear implicits.
Arguments SceneObjectPtrs : clear implicits.
Arguments Collaborators : clear implicits.
Arguments ScanState : clear implicits.

(* ================================================================== *)
(** * [gm::Vec2iRange] and its iterator *)

Module Vec2iRange.

(** [operator!=] of [gm::Vec2i]. *)
Definition Vec2i_neq (a b : Vec2i) : bool :=
  negb ((i0 a =? i0 b) && (i1 a =? i1 b)).

Record t : Type := mk { m_min : Vec2i; m_max : Vec2i }.

Record iterator : Type := mkIterator {
  m_currentValue : Vec2i;
  it_min : Vec2i;
  it_max : Vec2i
}.

Definition begin (r : t) : iterator := mkIterator (m_min r) (m_min r) (m_max r).
Definition end_ (r : t) : iterator := mkIterator (m_max r) (m_min r) (m_max r).

(** [iterator::operator!=] compares the current positions only. *)
Definition neq (a b : iterator) : bool :=
  Vec2i_neq (m_currentValue a) (m_currentValue b).

(** [iterator::operator*]. *)
Definition deref (it : iterator) : Vec2i := m_currentValue it.

(** [iterator::operator++]. *)
Definition incr (it : iterator) : iterator :=
  let c := m_currentValue it in
  if Int.add (i0 c) 1 <? i0 (it_max it)
  then mkIterator (mkVec2i (Int.add (i0 c) 1) (i1 c)) (it_min it) (it_max it)
  else if Int.add (i1 c) 1 <? i1 (it_max it)
  then mkIterator (mkVec2i (i0 (it_min it)) (Int.add (i1 c) 1)) (it_min it) (it_max it)
  else mkIterator (it_max it) (it_min it) (it_max it).

(** [k] applications of [operator++]. *)
Fixpoint advance (k : nat) (it : iterator) : iterator :=
  match k with
  | O => it
  | S k' => advance k' (incr it)
  end.

(** The range-based [for]: the values [*it] of the iterations made before
    [it != end] fails; [None] when [fuel] iterations were not enough. *)
Fixpoint visited (fuel : nat) (it last : iterator) : option (list Vec2i) :=
  match fuel with
  | O => None
  | S fuel' =>
    if neq it last
    then match visited fuel' (incr it) last with
         | Some l => Some (deref it :: l)
         | None => None
         end
    else Some []
  end.

Definition elements (fuel : nat) (r : t) : option (list Vec2i) :=
  visited fuel (begin r) (end_ r).

(** The extent of the range in each direction. *)
Definition width (r : t) : Z := i0 (m_max r) - i0 (m_min r).
Definition height (r : t) : Z := i1 (m_max r) - i1 (m_min r).

(** Row-major enumeration of the rectangle, [x] varying fastest: the
    [k]-th point and the whole list. *)
Definition point (r : t) (k : Z) : Vec2i :=
  mkVec2i (i0 (m_min r) + k mod width r) (i1 (m_min r) + k / width r).

(** The iterator standing at the [k]-th point. *)
Definition at_point (r : t) (k : Z) : iterator := mkIterator (point r k) (m_min r) (m_max r).

Definition rowMajor (r : t) : list Vec2i :=
  map (fun k => point r (Z.of_nat k)) (seq 0 (Z.to_nat (width r * height r))).

End Vec2iRange.

(* ================================================================== *)
(** * The image buffer *)

(** Modelled from the spec: [raytrace::RGBImageBuffer] (imageBuffer.h is not
    among the sources) is a 2D grid addressable by integer [(x, y)], each
    cell holding a colour, which exposes its coordinate extent
    [[0,width) x [0,height)] as an iterable range. *)
Record RGBImageBuffer : Type := mkImage {
  img_width : Z;
  img_height : Z;
  pixelAt : Z -> Z -> Vec3f
}.

Definition Extent (image : RGBImageBuffer) : Vec2iRange.t :=
  Vec2iRange.mk (mkVec2i 0 0) (mkVec2i (img_width image) (img_height image)).

(** [image( x, y ) = c]. *)
Definition assign (image : RGBImageBuffer) (x y : Z) (c : Vec3f) : RGBImageBuffer :=
  mkImage (img_width image) (img_height image)
          (fun x' y' => if (x' =? x) && (y' =? y) then c else pixelAt image x' y').

(* ================================================================== *)
(** * The program: command line, sampling loop, exit code *)

(** One entry of [options.add_options()]. *)
Record OptionSpec : Type := mkOption {
  opt_short : string;
  opt_long : string;
  opt_description : string;
  opt_default : option string
}.


(** Modelled from the spec: [raytrace::Camera] (camera.h is not among the
    sources) exposes an origin and three vectors: the bottom-left corner of
    the viewport and its horizontal and vertical spans. *)
Record Camera : Type := mkCamera {
  cam_Origin : Vec3f;
  ViewportBottomLeft : Vec3f;
  ViewportHorizontal : Vec3f;
  ViewportVertical : Vec3f
}.

Section Program.

Context {World MaterialPtr : Type}.

(** What [main] takes from [cxxopts], [gm] and [raytrace] headers that are
    not among the sources. *)
Record Platform : Type := mkPlatform {
  ParseResult : Type;
  parse : list OptionSpec -> list string -> ParseResult;
  as_int : ParseResult -> string -> Z;
  as_string : ParseResult -> string -> string;
  newImage : Z -> Z -> RGBImageBuffer;
  newCamera : F32.float -> Camera;
  makeSphere : Vec3f -> F32.float -> MaterialPtr -> SceneObject World MaterialPtr;
  makeLambert : Vec3f -> MaterialPtr;
  makeMetal : Vec3f -> F32.float -> MaterialPtr;
  defaultVec3f : Vec3f;
  vadd : Vec3f -> Vec3f -> Vec3f;
  vsub : Vec3f -> Vec3f -> Vec3f;
  vscale : F32.float -> Vec3f -> Vec3f;
  vdiv : Vec3f -> F32.float -> Vec3f;
  Normalize : Vec3f -> Vec3f;
  Clamp : Vec3f -> FloatRange -> Vec3f;
  RandomNumber : FloatRange -> World -> F32.float * World;
  WritePPMImage : RGBImageBuffer -> string -> World -> bool * World
}.

Variable env : Collaborators World MaterialPtr.
Variable pf : Platform.

(** The scene [main] allocates. *)
Definition f32 (n d : Z) : F32.float := F32.div (F32.of_int n) (F32.of_int d).
Definition f32_of_literal (n d : Z) : F32.float := float_of_double (F64.of_ratio n d).

Definition mainScene : SceneObjectPtrs World MaterialPtr :=
  [ makeSphere pf (mkVec3f (f32 0 1) (f32 0 1) (f32 (-1) 1)) (f32_of_literal 1 2)
               (makeLambert pf (mkVec3f (f32 7 10) (f32 3 10) (f32 3 10)));
    makeSphere pf (mkVec3f (f32 0 1) (f32_of_literal (-201) 2) (f32 (-1) 1)) (F32.of_int 100)
               (makeLambert pf (mkVec3f (f32 8 10) (f32 8 10) (f32 0 1)));
    makeSphere pf (mkVec3f (f32 1 1) (f32 0 1) (f32 (-1) 1)) (f32_of_literal 1 2)
               (makeMetal pf (mkVec3f (f32 8 10) (f32 6 10) (f32 2 10)) (f32_of_literal 1 1));
    makeSphere pf (mkVec3f (f32 (-1) 1) (f32 0 1) (f32 (-1) 1)) (f32_of_literal 1 2)
               (makeMetal pf (mkVec3f (f32 8 10) (f32 8 10) (f32 8 10)) (f32_of_literal 3 10)) ].

Section Render.

Variable fuel : nat.
Variables imageWidth imageHeight samplesPerPixel rayBounceLimit : Z.
Variable camera : Camera.
Variable sceneObjectPtrs : SceneObjectPtrs World MaterialPtr.

(** The ray of one sample, from the two jitter values, before and after
    [ray.Direction() = gm::Normalize( ray.Direction() )]. *)
Definition cameraRay (pixelCoord : Vec2i) (jitterX jitterY : F32.float) : Ray :=
  let u := F32.div (F32.add (F32.of_int (i0 pixelCoord)) jitterX) (F32.of_int imageWidth) in
  let v := F32.div (F32.add (F32.of_int (i1 pixelCoord)) jitterY) (F32.of_int imageHeight) in
  mkRay (cam_Origin camera)
        (vsub pf
           (vadd pf
              (vadd pf (ViewportBottomLeft camera) (vscale pf u (ViewportHorizontal camera)))
              (vscale pf v (ViewportVertical camera)))
           (cam_Origin camera)).

Definition normalized (ray : Ray) : Ray :=
  mkRay (Origin ray) (Normalize pf (Direction ray)).

(** The loop over [sampleIndex]: [count] iterations are left. *)
Fixpoint sampleLoop (count : nat) (pixelCoord : Vec2i) (pixelColor : Vec3f) (w : World)
  : option (Vec3f * World) :=
  match count with
  | O => Some (pixelColor, w)
  | S count' =>
    let '(jitterX, w1) := RandomNumber pf c_normalizedRange w in
    let '(jitterY, w2) := RandomNumber pf c_normalizedRange w1 in
    let ray := normalized (cameraRay pixelCoord jitterX jitterY) in
    match ComputeRayColor env fuel ray rayBounceLimit sceneObjectPtrs w2 with
    | Some (color, w3) => sampleLoop count' pixelCoord (vadd pf pixelColor color) w3
    | None => None
    end
  end.

(** Average, gamma 2, clamp.  ([sqrt] of a [float]: the root computed in
    [double] and rounded to [float] is the correctly rounded [float] root,
    whichever overload is taken.) *)
Definition finalize (pixelColor : Vec3f) : Vec3f :=
  let averaged := vdiv pf pixelColor (F32.of_int samplesPerPixel) in
  let corrected := mkVec3f (F32.sqrt (e0 averaged))
                           (F32.sqrt (e1 averaged))
                           (F32.sqrt (e2 averaged)) in
  Clamp pf corrected c_normalizedRange.


(** The body of the loop over the pixels. *)
Definition renderPixel (st : RGBImageBuffer * World) (pixelCoord : Vec2i)
  : option (RGBImageBuffer * World) :=
  let '(image, w) := st in
  match sampleLoop (Z.to_nat samplesPerPixel) pixelCoord (defaultVec3f pf) w with
  | Some (pixelColor, w') =>
    Some (assign image (i0 pixelCoord) (i1 pixelCoord) (finalize pixelColor), w')
  | None => None
  end.

Fixpoint renderPixels (pixels : list Vec2i) (st : RGBImageBuffer * World)
  : option (RGBImageBuffer * World) :=
  match pixels with
  | [] => Some st
  | pixelCoord :: rest =>
    match renderPixel st pixelCoord with
    | Some st' => renderPixels rest st'
    | None => None
    end
  end.

Definition render (image : RGBImageBuffer) (w : World) : option (RGBImageBuffer * World) :=
  match Vec2iRange.elements fuel (Extent image) with
  | Some pixels => renderPixels pixels (image, w)
  | None => None
  end.

End Render.


End Program.

Arguments Platform : clear implicits.

(* ================================================================== *)
(** * Observing the virtual calls *)

(** What one virtual call was given and what it answered. *)
Inductive Event (MaterialPtr : Type) : Type :=
| EvHit (i_magnitudeRange : FloatRange) (answer : bool * HitRecord MaterialPtr)
| EvScatter (answer : bool * Vec3f * Ray).

Arguments EvHit {MaterialPtr}.
Arguments EvScatter {MaterialPtr}.

(** The answer alone: the value the caller drew from the call. *)
Inductive Answer (MaterialPtr : Type) : Type :=
| AnsHit (answer : bool * HitRecord MaterialPtr)
| AnsScatter (answer : bool * Vec3f * Ray).

Arguments AnsHit {MaterialPtr}.
Arguments AnsScatter {MaterialPtr}.

Definition answerOf {MaterialPtr} (ev : Event MaterialPtr) : Answer MaterialPtr :=
  match ev with
  | EvHit _ a => AnsHit a
  | EvScatter a => AnsScatter a
  end.

Section Logging.

Context {World MaterialPtr : Type}.

(** A world that also carries the log of the calls, latest first. *)
Definition Logged : Type := (World * list (Event MaterialPtr))%type.

(** The same object, every [Hit] of which is written to the log. *)
Definition loggedObject (o : SceneObject World MaterialPtr) : SceneObject Logged MaterialPtr :=
  mkSceneObject
    (fun i_ray i_magnitudeRange o_record (wl : Logged) =>
       let '(answer, w') := Hit o i_ray i_magnitudeRange o_record (fst wl) in
       (answer, (w', EvHit i_magnitudeRange answer :: snd wl))).

(** The same material, every [Scatter] of which is written to the log. *)
Definition loggedMaterial (m : Material World MaterialPtr) : Material Logged MaterialPtr :=
  mkMaterial
    (fun i_ray i_hitRecord (wl : Logged) =>
       let '(answer, w') := Scatter m i_ray i_hitRecord (fst wl) in
       (answer, (w', EvScatter answer :: snd wl))).

Definition loggedEnv (env : Collaborators World MaterialPtr) : Collaborators Logged MaterialPtr :=
  mkCollaborators (fun p => loggedMaterial (material_at env p))
                  (LinearInterpolation env)
                  (defaultHitRecord env).

(** The [Hit] calls a scan makes from a given state, in order, as read off
    the code: each object is handed [(0.001f, nearestHitMagnitude)] and the
    record as it stands. *)
Fixpoint scanEvents (i_ray : Ray) (objs : SceneObjectPtrs World MaterialPtr)
         (st : ScanState MaterialPtr * World) : list (Event MaterialPtr) :=
  match objs with
  | [] => []
  | o :: rest =>
    let magnitudeRange := mkFloatRange shadowAcneBound (nearestHitMagnitude (fst st)) in
    EvHit magnitudeRange (fst (Hit o i_ray magnitudeRange (record (fst st)) (snd st)))
    :: scanEvents i_ray rest (scanStep i_ray st o)
  end.

(** The locals of the scan after a sequence of answers of [Hit]. *)
Definition replayStep (s : ScanState MaterialPtr) (answer : bool * HitRecord MaterialPtr)
  : ScanState MaterialPtr :=
  if fst answer
  then mkScanState (snd answer) true (m_magnitude (snd answer))
  else mkScanState (snd answer) (objectHit s) (nearestHitMagnitude s).

Definition replayScan (s : ScanState MaterialPtr) (answers : list (bool * HitRecord MaterialPtr))
  : ScanState MaterialPtr :=
  fold_left replayStep answers s.

(** The answers of [Hit] among a sequence of answers. *)
Definition hitsOfAnswers (answers : list (Answer MaterialPtr))
  : list (bool * HitRecord MaterialPtr) :=
  flat_map (fun a => match a with AnsHit x => [x] | AnsScatter _ => [] end) answers.

(** How the calls of one activation that follow its scan are made up, with
    the colour the activation returns. *)
Inductive Shape (env : Collaborators World MaterialPtr) (fuel : nat) (i_ray : Ray) (n : Z)
          (objs : SceneObjectPtrs World MaterialPtr) (w : World) (c : Vec3f)
  : list (Event MaterialPtr) -> Prop :=
| ShapeEscaped :
    objectHit (fst (scan env i_ray objs w)) = false ->
    c = backgroundColor env i_ray ->
    Shape env fuel i_ray n objs w c []
| ShapeAbsorbed attenuation scatteredRay :
    objectHit (fst (scan env i_ray objs w)) = true ->
    c = black ->
    Shape env fuel i_ray n objs w c [EvScatter (false, attenuation, scatteredRay)]
| ShapeScattered attenuation scatteredRay w2 d w3 events :
    objectHit (fst (scan env i_ray objs w)) = true ->
    ComputeRayColor (loggedEnv env) fuel scatteredRay (Int.sub n 1) (map loggedObject objs)
                    (w2, []) = Some (d, (w3, events)) ->
    c = attenuate attenuation d ->
    Shape env fuel i_ray n objs w c (events ++ [EvScatter (true, attenuation, scatteredRay)]).

(** The calls of a run, in order, are those of activations that each scan
    the same collection [objs] from the start: a scan alone (the ray
    escaped), or a scan followed by one [Scatter] and the calls of the
    nested activation (none when the ray was absorbed or the budget is
    used up). *)
Inductive ScansOf (env : Collaborators World MaterialPtr)
          (objs : SceneObjectPtrs World MaterialPtr) : list (Event MaterialPtr) -> Prop :=
| ScansNone : ScansOf env objs []
| ScansEscaped i_ray w : ScansOf env objs (scanEvents i_ray objs (scanStart env, w))
| ScansScattered i_ray w answer nested :
    ScansOf env objs nested ->
    ScansOf env objs (scanEvents i_ray objs (scanStart env, w) ++ EvScatter answer :: nested).

(** The calls of one intersection scan and of one whole integrator run, in
    the order they were made. *)
Definition scanCalls (env : Collaborators World MaterialPtr) (i_ray : Ray)
           (objs : SceneObjectPtrs World MaterialPtr) (w : World) : list (Event MaterialPtr) :=
  rev (snd (snd (scan (loggedEnv env) i_ray (map loggedObject objs) (w, [])))).

Definition runCalls (env : Collaborators World MaterialPtr) (fuel : nat) (i_ray : Ray)
           (n : Z) (objs : SceneObjectPtrs World MaterialPtr) (w : World)
  : option (list (Event MaterialPtr)) :=
  match ComputeRayColor (loggedEnv env) fuel i_ray n (map loggedObject objs) (w, []) with
  | Some (_, (_, log)) => Some (rev log)
  | None => None
  end.

End Logging.

(* ================================================================== *)
(** * The contract of [SceneObject::Hit] *)

Section HitContract.

Context {World MaterialPtr : Type}.

(** A parameter lies strictly inside the interval. *)
Definition inside (rg : FloatRange) (t : F32.float) : bool :=
  F32.ltb (Min rg) t && F32.ltb t (Max rg).

(** The smallest hit parameter among the successful answers of a sequence
    of [Hit] calls, [std::numeric_limits< float >::max()] when none
    succeeded. *)
Fixpoint smallestReported (bound : F32.float) (answers : list (bool * HitRecord MaterialPtr))
  : F32.float :=
  match answers with
  | [] => bound
  | (hit, r) :: rest =>
    smallestReported (if hit && F32.ltb (m_magnitude r) bound then m_magnitude r else bound) rest
  end.

Definition hitAnswers (calls : list (Event MaterialPtr)) : list (bool * HitRecord MaterialPtr) :=
  flat_map (fun ev => match ev with EvHit _ a => [a] | EvScatter _ => [] end) calls.

Definition hitRanges (calls : list (Event MaterialPtr)) : list FloatRange :=
  flat_map (fun ev => match ev with EvHit rg _ => [rg] | EvScatter _ => [] end) calls.

(** Modelled from the spec: [Sphere::Hit] (sphere.h is not among the
    sources) selects the smallest root that lies within [(tMin, tMax)] and
    fills the record for it; otherwise it leaves the record untouched and
    reports failure.  [nearestRoot] makes that selection among the records
    of the roots of one object, the first of equal roots winning. *)
Fixpoint nearestRoot (roots : list (HitRecord MaterialPtr)) (rg : FloatRange)
  : option (HitRecord MaterialPtr) :=
  match roots with
  | [] => None
  | h :: rest =>
    if inside rg (m_magnitude h)
    then match nearestRoot rest (mkFloatRange (Min rg) (m_magnitude h)) with
         | Some h' => Some h'
         | None => Some h
         end
    else nearestRoot rest rg
  end.

(** Every successful [Hit] of the object reports a parameter strictly inside
    the interval it was given. *)
Definition hitsInside (o : SceneObject World MaterialPtr) : Prop :=
  forall i_ray rg o_record w,
    fst (fst (Hit o i_ray rg o_record w)) = true ->
    inside rg (m_magnitude (snd (fst (Hit o i_ray rg o_record w)))) = true.

(** The object answers every [Hit] with its nearest in-range root, [roots]
    being the records of its intersections with the ray; it uses no other
    state. *)
Definition returnsNearestRoot (o : SceneObject World MaterialPtr)
           (roots : Ray -> list (HitRecord MaterialPtr)) : Prop :=
  forall i_ray rg o_record w,
    Hit o i_ray rg o_record w =
    (match nearestRoot (roots i_ray) rg with
     | Some h => (true, h)
     | None => (false, o_record)
     end, w).

(** The locals of the scan once it was handed the nearest root [found]. *)
Definition settle (s : ScanState MaterialPtr) (found : option (HitRecord MaterialPtr))
  : ScanState MaterialPtr :=
  match found with
  | Some h => mkScanState h true (m_magnitude h)
  | None => s
  end.

(** No two different intersection records of the scene share their hit
    parameter. *)
Definition noTies (roots : SceneObject World MaterialPtr -> Ray -> list (HitRecord MaterialPtr))
           (objs : SceneObjectPtrs World MaterialPtr) : Prop :=
  forall i_ray h h',
    In h (flat_map (fun o => roots o i_ray) objs) ->
    In h' (flat_map (fun o => roots o i_ray) objs) ->
    F32.ltb (m_magnitude h) (m_magnitude h') = false ->
    F32.ltb (m_magnitude h') (m_magnitude h) = false ->
    inside (mkFloatRange shadowAcneBound F32.max_value) (m_magnitude h) = true ->
    inside (mkFloatRange shadowAcneBound F32.max_value) (m_magnitude h') = true ->
    h = h'.

End HitContract.

(* ================================================================== *)
(** * Reference models of absent [gm] functions *)

(** Modelled from the spec: [gm::LinearInterpolation] (linearInterpolation.h
    is not among the sources), linear interpolation between two vectors with
    a weight: [(1 - weight) * source + weight * target], per component. *)
Definition lerp1 (a b weight : F32.float) : F32.float :=
  F32.add (F32.mul (F32.sub F32.one weight) a) (F32.mul weight b).

Definition lerpModel (source target : Vec3f) (weight : F32.float) : Vec3f :=
  mkVec3f (lerp1 (e0 source) (e0 target) weight)
          (lerp1 (e1 source) (e1 target) weight)
          (lerp1 (e2 source) (e2 target) weight).

(** Modelled from the spec: the componentwise arithmetic of [gm::Vec3f]
    (vec3f.h is not among the sources). *)
Definition vaddModel (a b : Vec3f) : Vec3f :=
  mkVec3f (F32.add (e0 a) (e0 b)) (F32.add (e1 a) (e1 b)) (F32.add (e2 a) (e2 b)).

Definition vsubModel (a b : Vec3f) : Vec3f :=
  mkVec3f (F32.sub (e0 a) (e0 b)) (F32.sub (e1 a) (e1 b)) (F32.sub (e2 a) (e2 b)).

Definition vscaleModel (k : F32.float) (a : Vec3f) : Vec3f :=
  mkVec3f (F32.mul k (e0 a)) (F32.mul k (e1 a)) (F32.mul k (e2 a)).

Definition vdivModel (a : Vec3f) (k : F32.float) : Vec3f :=
  mkVec3f (F32.div (e0 a) k) (F32.div (e1 a) k) (F32.div (e2 a) k).

(** Modelled from the spec: [gm::Clamp] (clamp.h is not among the sources),
    each channel clamped into the range. *)
Definition clamp1 (x : F32.float) (rg : FloatRange) : F32.float :=
  if F32.ltb x (Min rg) then Min rg else if F32.ltb (Max rg) x then Max rg else x.

Definition clampModel (a : Vec3f) (rg : FloatRange) : Vec3f :=
  mkVec3f (clamp1 (e0 a) rg) (clamp1 (e1 a) rg) (clamp1 (e2 a) rg).

(** Modelled from the spec: [gm::Normalize] (normalize.h is not among the
    sources), the vector divided by its length. *)
Definition lengthModel (v : Vec3f) : F32.float :=
  F32.sqrt (F32.add (F32.add (F32.mul (e0 v) (e0 v)) (F32.mul (e1 v) (e1 v)))
                    (F32.mul (e2 v) (e2 v))).

Definition normalizeModel (v : Vec3f) : Vec3f :=
  mkVec3f (F32.div (e0 v) (lengthModel v))
          (F32.div (e1 v) (lengthModel v))
          (F32.div (e2 v) (lengthModel v)).

(* ================================================================== *)
(** * Reading the rounding of [SpecFloat] *)

(** Some digit was shifted out of the record. *)
Definition inexact (r : shr_record) : bool := shr_r r || shr_s r.

(** [k] halvings of [m0], started exactly. *)
Definition halvings (m0 : Z) (k : nat) : shr_record :=
  Nat.iter k shr_1 (Build_shr_record m0 false false).

(* ================================================================== *)
(** * Colours with channels in [[0,1]] *)

(** A [float] that is a number of the format and lies in [[0,1]]. *)
Definition unitInterval (x : F32.float) : bool :=
  F32.valid x && F32.leb F32.zero x && F32.leb x F32.one.

Definition unitColor (c : Vec3f) : bool :=
  unitInterval (e0 c) && unitInterval (e1 c) && unitInterval (e2 c).

(** Every channel of [c] is at most the same channel of [bound]. *)
Definition channelsLe (c bound : Vec3f) : bool :=
  F32.leb (e0 c) (e0 bound) && F32.leb (e1 c) (e1 bound) && F32.leb (e2 c) (e2 bound).

(* ================================================================== *)
(** * A small test scene *)

Module TestScene.

(** The state of the random generator: the number of draws made. *)
Definition World : Type := nat.

(** Two materials: [false] absorbs every ray, [true] scatters every ray
    straight up with a grey attenuation and draws one random number. *)
Definition MaterialPtr : Type := bool.

Definition zeroVec : Vec3f := mkVec3f F32.zero F32.zero F32.zero.
Definition up : Vec3f := mkVec3f F32.zero F32.one F32.zero.
Definition down : Vec3f := mkVec3f F32.zero (SFopp F32.one) F32.zero.
Definition grey : Vec3f := mkVec3f F32.half F32.half F32.half.

Definition absorber : Material World MaterialPtr :=
  mkMaterial (fun i_ray i_hitRecord w => ((false, zeroVec, i_ray), w)).

Definition reflector : Material World MaterialPtr :=
  mkMaterial (fun i_ray i_hitRecord w =>
                ((true, grey, mkRay (m_position i_hitRecord) up), S w)).

Definition env : Collaborators World MaterialPtr :=
  mkCollaborators (fun p : MaterialPtr => if p then reflector else absorber)
                  lerpModel
                  (mkHitRecord zeroVec zeroVec F32.zero false).

(** An object given by the records of its intersections with each ray. *)
Definition objectOfRoots (roots : Ray -> list (HitRecord MaterialPtr))
  : SceneObject World MaterialPtr :=
  mkSceneObject
    (fun i_ray rg o_record w =>
       (match nearestRoot (roots i_ray) rg with
        | Some h => (true, h)
        | None => (false, o_record)
        end, w)).

(** A floor: rays that do not point upwards meet it at parameter [t]. *)
Definition floorRoots (t : F32.float) (p : MaterialPtr) (i_ray : Ray)
  : list (HitRecord MaterialPtr) :=
  if F32.leb (Y (Direction i_ray)) F32.zero
  then [mkHitRecord zeroVec up t p]
  else [].

Definition floor (t : F32.float) (p : MaterialPtr) : SceneObject World MaterialPtr :=
  objectOfRoots (floorRoots t p).

(** A closed box around the origin: every ray meets it at parameter 1. *)
Definition boxRoots (i_ray : Ray) : list (HitRecord MaterialPtr) :=
  [mkHitRecord zeroVec up F32.one true].

Definition box : SceneObject World MaterialPtr := objectOfRoots boxRoots.

Definition two : F32.float := F32.of_int 2.

Definition rayDown : Ray := mkRay zeroVec down.
Definition rayUp : Ray := mkRay zeroVec up.
Definition rayUp2 : Ray := mkRay zeroVec (mkVec3f F32.zero two F32.zero).

(** The roots of the objects of the test scenes, by object. *)
Definition nearFloor : SceneObject World MaterialPtr := floor F32.one true.
Definition farFloor : SceneObject World MaterialPtr := floor two false.
Definition darkFloor : SceneObject World MaterialPtr := floor F32.one false.

(** A platform for the test scene: the command line is ignored and asks for
    a 2 x 1 image, one sample per pixel and two bounces; every sphere of
    [main] is replaced by a floor; the random generator returns the lower
    bound of the range and counts its draws; the image is always written. *)
Definition platform : Platform World MaterialPtr :=
  @mkPlatform World MaterialPtr unit
    (fun _ _ => tt)
    (fun _ name => if String.eqb name "width" then 2
                   else if String.eqb name "height" then 1
                   else if String.eqb name "samplesPerPixel" then 1
                   else 2)
    (fun _ _ => "out.ppm"%string)
    (fun width height => mkImage width height (fun _ _ => zeroVec))
    (fun aspectRatio => mkCamera zeroVec down (mkVec3f aspectRatio F32.zero F32.zero) up)
    (fun center radius material => floor radius material)
    (fun albedo => true)
    (fun albedo fuzziness => false)
    zeroVec
    vaddModel vsubModel vscaleModel vdivModel normalizeModel clampModel
    (fun rg w => (Min rg, S w))
    (fun image filePath w => (true, w)).


(** The intersection records of an object of the test scene with a ray: what
    it answers when asked with the whole interval of the scan. *)
Definition rootsOf (o : SceneObject World MaterialPtr) (i_ray : Ray)
  : list (HitRecord MaterialPtr) :=
  match Hit o i_ray (mkFloatRange shadowAcneBound F32.max_value) (defaultHitRecord env) 0%nat with
  | ((true, h), _) => [h]
  | _ => []
  end.

End TestScene.

(* ================================================================== *)
(** * Ranges of any shape *)

Module AnyRange.

Import Vec2iRange.

(** The default-constructed range of [Vec2iRange()]: the minimum is the
    largest [int] and the maximum the smallest, in both components. *)
Definition defaultRange : t :=
  mk (mkVec2i Int.max_value Int.max_value) (mkVec2i Int.min_value Int.min_value).

(** The number of columns and of rows the iteration goes through: the
    extent, but one at least. *)
Definition columns (r : t) : Z := Z.max 1 (width r).
Definition rows (r : t) : Z := Z.max 1 (height r).

(** The [k]-th point the iteration visits, and all of them in order. *)
Definition cell (r : t) (k : Z) : Vec2i :=
  mkVec2i (i0 (m_min r) + k mod columns r) (i1 (m_min r) + k / columns r).

Definition at_cell (r : t) (k : Z) : iterator := mkIterator (cell r k) (m_min r) (m_max r).

Definition cells (r : t) : list Vec2i :=
  map (fun k => cell r (Z.of_nat k)) (seq 0 (Z.to_nat (columns r * rows r))).

(** No [operator++] of the iteration overflows: the coordinates are [int]s
    and the minimum is below the largest [int]. *)
Definition noOverflow (r : t) : Prop :=
  Int.in_range (i0 (m_min r)) /\ Int.in_range (i1 (m_min r)) /\
  Int.in_range (i0 (m_max r)) /\ Int.in_range (i1 (m_max r)) /\
  i0 (m_min r) < Int.max_value /\ i1 (m_min r) < Int.max_value.

End AnyRange.

(* ================================================================== *)
(** * Counting calls, closed scenes *)

Section RunNotions.

Context {World MaterialPtr : Type}.

(** The answers of [Scatter] among a sequence of calls. *)
Definition scatterAnswers (calls : list (Event MaterialPtr)) : list (bool * Vec3f * Ray) :=
  flat_map (fun ev => match ev with EvHit _ _ => [] | EvScatter a => [a] end) calls.

(** Every ray meets some object of the scene. *)
Definition alwaysHit (env : Collaborators World MaterialPtr)
           (objs : SceneObjectPtrs World MaterialPtr) : Prop :=
  forall (i_ray : Ray) (w : World), objectHit (fst (scan env i_ray objs w)) = true.

(** No material ever absorbs a ray. *)
Definition alwaysScatters (env : Collaborators World MaterialPtr) : Prop :=
  forall (p : MaterialPtr) (i_ray : Ray) (h : HitRecord MaterialPtr) (w : World),
    fst (fst (fst (Scatter (material_at env p) i_ray h w))) = true.

(** A number, as opposed to an infinity or a NaN; a zero of either sign. *)
Definition isNumber (x : F32.float) : bool :=
  match x with
  | S754_zero _ | S754_finite _ _ _ => true
  | _ => false
  end.

Definition isZero (x : F32.float) : bool :=
  match x with
  | S754_zero _ => true
  | _ => false
  end.

Definition numberColor (c : Vec3f) : bool := isNumber (e0 c) && isNumber (e1 c) && isNumber (e2 c).
Definition zeroColor (c : Vec3f) : bool := isZero (e0 c) && isZero (e1 c) && isZero (e2 c).

(** Every attenuation a material hands out is made of numbers. *)
Definition numberAttenuations (env : Collaborators World MaterialPtr) : Prop :=
  forall (p : MaterialPtr) (i_ray : Ray) (h : HitRecord MaterialPtr) (w : World),
    numberColor (snd (fst (fst (Scatter (material_at env p) i_ray h w)))) = true.

(** A [Hit] that reports failure leaves the record as it was. *)
Definition keepsRecordOnMiss (o : SceneObject World MaterialPtr) : Prop :=
  forall i_ray rg o_record w,
    fst (fst (Hit o i_ray rg o_record w)) = false ->
    snd (fst (Hit o i_ray rg o_record w)) = o_record.

End RunNotions.
(* ================================================================== *)
(** * More test scenes *)

Module MirrorScene.

(** The collaborators of the test scene with the reflector as the only
    material: no ray is ever absorbed. *)
Definition env : Collaborators TestScene.World TestScene.MaterialPtr :=
  mkCollaborators (fun _ : TestScene.MaterialPtr => TestScene.reflector)
                  lerpModel
                  (defaultHitRecord TestScene.env).

(** A range without width, three rows high. *)
Definition flatRange : Vec2iRange.t := Vec2iRange.mk (mkVec2i 0 0) (mkVec2i 0 3).

(** Rays that go straight up or straight down. *)
Definition vertical (r : Ray) : Prop :=
  Direction r = TestScene.up \/ Direction r = TestScene.down.

End MirrorScene.

(* ================================================================== *)
(** * The literals of the program *)

Example shadowAcneBound_bits :
  shadowAcneBound = S754_finite false 8589935 (-33) /\ F32.valid shadowAcneBound = true.
Proof. split; vm_compute; reflexivity. Qed.

Example max_value_bits : F32.max_value = S754_finite false 16777215 104.
Proof. vm_compute. reflexivity. Qed.

Example white_bits : white = mkVec3f F32.one F32.one F32.one.
Proof. vm_compute. reflexivity. Qed.

Example skyBlue_bits :
  skyBlue = mkVec3f (S754_finite false 8388608 (-24))
                    (S754_finite false 11744051 (-24))
                    (S754_finite false 8388608 (-23)).
Proof. vm_compute. reflexivity. Qed.

Example black_bits : black = mkVec3f F32.zero F32.zero F32.zero.
Proof. vm_compute. reflexivity. Qed.

Example backgroundWeight_up :
  backgroundWeight (mkRay black (mkVec3f F32.zero F32.one F32.zero)) = F32.of_scaled 3 (-1).
Proof. vm_compute. reflexivity. Qed.

Example sqrt_through_double :
  float_of_double (F64.sqrt (double_of_float (F32.of_scaled 1 (-3)))) =
  F32.sqrt (F32.of_scaled 1 (-3)).
Proof. vm_compute. reflexivity. Qed.

(* ================================================================== *)
(** * Facts about binary32 arithmetic *)

Lemma digits2_pos_bounds (m : positive) :
  2 ^ (Zpos (digits2_pos m) - 1) <= Zpos m < 2 ^ Zpos (digits2_pos m).
Proof.
  induction m as [p IH|p IH|]; cbn [digits2_pos].
  - rewrite Pos2Z.inj_succ. replace (Z.succ (Zpos (digits2_pos p)) - 1) with (Z.succ (Zpos (digits2_pos p) - 1)) by lia.
    rewrite !Z.pow_succ_r by lia. lia.
  - rewrite Pos2Z.inj_succ. replace (Z.succ (Zpos (digits2_pos p)) - 1) with (Z.succ (Zpos (digits2_pos p) - 1)) by lia.
    rewrite !Z.pow_succ_r by lia. lia.
  - cbn. lia.
Qed.

Lemma Zdigits2_le (m k : Z) : 0 <= m < 2 ^ k -> 0 <= k -> Zdigits2 m <= k.
Proof.
  intros [Hm Hlt] Hk. destruct m as [|p|p]; cbn [Zdigits2]; [lia| |lia].
  destruct (digits2_pos_bounds p) as [Hlo _].
  destruct (Z_le_gt_dec (Zpos (digits2_pos p)) k) as [|Hgt]; [assumption|exfalso].
  assert (2 ^ k <= 2 ^ (Zpos (digits2_pos p) - 1)) by (apply Z.pow_le_mono_r; lia).
  lia.
Qed.

Lemma iter_pos_nat {A} (f : A -> A) (p : positive) (x : A) :
  iter_pos f p x = Nat.iter (Pos.to_nat p) f x.
Proof.
  revert x. induction p as [p IH|p IH|]; intros x; cbn [iter_pos].
  - rewrite !IH, Pos2Nat.inj_xI. 
    replace (S (2 * Pos.to_nat p)) with (Pos.to_nat p + Pos.to_nat p + 1)%nat by lia.
    rewrite !Nat.iter_add. reflexivity.
  - rewrite !IH, Pos2Nat.inj_xO.
    replace (2 * Pos.to_nat p)%nat with (Pos.to_nat p + Pos.to_nat p)%nat by lia.
    rewrite Nat.iter_add. reflexivity.
  - reflexivity.
Qed.

Lemma shr_1_m (r : shr_record) : 0 <= shr_m r -> shr_m (shr_1 r) = shr_m r / 2.
Proof.
  destruct r as [m r s]; cbn [shr_m]. intros Hm.
  destruct m as [|[p|p|]|p]; [reflexivity| | |reflexivity|lia]; cbv [shr_1 shr_m].
  - change (Zpos p~1) with (2 * Zpos p + 1). apply Z.div_unique with (r := 1); lia.
  - change (Zpos p~0) with (2 * Zpos p). apply Z.div_unique with (r := 0); lia.
Qed.

Lemma shr_1_inexact (r : shr_record) :
  0 <= shr_m r -> inexact (shr_1 r) = true -> inexact r = true \/ shr_m r mod 2 = 1.
Proof.
  destruct r as [m r s]; unfold inexact; cbn [shr_m shr_r shr_s]. intros Hm.
  destruct m as [|[p|p|]|p]; [| | | |lia]; cbv [shr_1 shr_m shr_r shr_s]; intros H.
  - left; exact H.
  - right. change (Zpos p~1) with (2 * Zpos p + 1). symmetry.
    apply Z.mod_unique with (q := Zpos p); lia.
  - left; exact H.
  - right. reflexivity.
Qed.

Lemma shr_iter (m0 : Z) (k : nat) :
  0 <= m0 ->
  shr_m (halvings m0 k) = m0 / 2 ^ Z.of_nat k /\
  (inexact (halvings m0 k) = true -> m0 mod 2 ^ Z.of_nat k <> 0).
Proof.
  intros Hm0. induction k as [|k [IHm IHi]].
  - cbn. split; [symmetry; apply Z.div_1_r | discriminate].
  - change (halvings m0 (S k)) with (shr_1 (halvings m0 k)).
    set (r := halvings m0 k) in *.
    assert (Hr : 0 <= shr_m r) by (rewrite IHm; apply Z.div_pos; lia).
    rewrite Nat2Z.inj_succ, Z.pow_succ_r by lia.
    assert (Hp : 0 < 2 ^ Z.of_nat k) by (apply Z.pow_pos_nonneg; lia).
    split.
    + rewrite shr_1_m, IHm by exact Hr. rewrite Z.div_div by lia.
      f_equal. lia.
    + intros Hi Hmod.
      apply Z.mod_divide in Hmod; [|lia]. destruct Hmod as [q Hq].
      destruct (shr_1_inexact r Hr Hi) as [Hi'|Hodd].
      * apply (IHi Hi'). rewrite Hq. apply Z.mod_divide; [lia|].
        exists (q * 2). lia.
      * rewrite IHm in Hodd.
        replace (m0 / 2 ^ Z.of_nat k) with (2 * q) in Hodd.
        -- rewrite Z.mul_comm, Z.mod_mul in Hodd by lia. lia.
        -- apply Z.div_unique with (r := 0); lia.
Qed.

Lemma round_nearest_even_le (r : shr_record) :
  round_nearest_even (shr_m r) (loc_of_shr_record r) <=
  shr_m r + (if inexact r then 1 else 0).
Proof.
  destruct r as [m [|] [|]]; unfold inexact; cbn; try lia.
  destruct (Z.even m); lia.
Qed.

Lemma round_nearest_even_ge (r : shr_record) :
  shr_m r <= round_nearest_even (shr_m r) (loc_of_shr_record r).
Proof.
  destruct r as [m [|] [|]]; cbn; try lia.
  destruct (Z.even m); lia.
Qed.

(** What [shr] leaves of a value below [A * 2^n]. *)
Lemma shr_below (m0 e n A : Z) :
  0 <= m0 -> 0 <= n -> m0 <= A * 2 ^ n ->
  let '(r, e') := shr (Build_shr_record m0 false false) e n in
  e' = e + n /\ 0 <= shr_m r /\ shr_m r <= A /\
  round_nearest_even (shr_m r) (loc_of_shr_record r) <= A.
Proof.
  intros Hm0 Hn HA. destruct n as [|p|p]; cbn [shr]; [|clear Hn|lia].
  - cbn. rewrite Z.pow_0_r in HA. lia.
  - rewrite iter_pos_nat.
    destruct (shr_iter m0 (Pos.to_nat p) Hm0) as [Hm Hi].
    change (Nat.iter (Pos.to_nat p) shr_1 (Build_shr_record m0 false false))
      with (halvings m0 (Pos.to_nat p)).
    set (r := halvings m0 (Pos.to_nat p)) in *.
    rewrite positive_nat_Z in *.
    assert (Hp : 0 < 2 ^ Zpos p) by (apply Z.pow_pos_nonneg; lia).
    assert (Hq : shr_m r <= A).
    { rewrite Hm. apply Z.div_le_upper_bound; lia. }
    repeat split; try assumption.
    + rewrite Hm. apply Z.div_pos; lia.
    + pose proof (round_nearest_even_le r) as Hle.
      destruct (inexact r) eqn:Ei; [|lia].
      specialize (Hi eq_refl).
      assert (shr_m r <> A); [|lia].
      intros Heq. rewrite Hm in Heq.
      pose proof (Z.mul_div_le m0 (2 ^ Zpos p) Hp) as H1.
      pose proof (Z.div_mod m0 (2 ^ Zpos p) ltac:(lia)) as H2.
      rewrite Heq in H1, H2. lia.
Qed.


Lemma fexp_mono (x y : Z) : x <= y -> fexp F32.prec F32.emax x <= fexp F32.prec F32.emax y.
Proof. unfold fexp, emin, F32.prec, F32.emax. lia. Qed.

Lemma canonical_exponent (m : positive) (e : Z) :
  canonical_mantissa F32.prec F32.emax m e = true ->
  fexp F32.prec F32.emax (Zpos (digits2_pos m) + e) = e.
Proof. unfold canonical_mantissa. apply Z.eqb_eq. Qed.

(** One [shr_fexp] of a value below that of a canonical float [(ma, ea)]. *)
Lemma shr_fexp_below (m e : Z) (ma : positive) (ea : Z) :
  0 <= m -> e <= ea -> m <= Zpos ma * 2 ^ (ea - e) ->
  canonical_mantissa F32.prec F32.emax ma ea = true ->
  let '(r, e') := shr_fexp F32.prec F32.emax m e loc_Exact in
  e' <= ea /\ 0 <= shr_m r /\ shr_m r <= Zpos ma * 2 ^ (ea - e') /\
  round_nearest_even (shr_m r) (loc_of_shr_record r) <= Zpos ma * 2 ^ (ea - e').
Proof.
  intros Hm He Hle Hcan. apply canonical_exponent in Hcan.
  unfold shr_fexp. cbn [shr_record_of_loc].
  set (n := fexp F32.prec F32.emax (Zdigits2 m + e) - e).
  assert (Hn : e + n <= ea).
  { unfold n.
    replace (e + (fexp F32.prec F32.emax (Zdigits2 m + e) - e)) with (fexp F32.prec F32.emax (Zdigits2 m + e)) by lia.
    rewrite <- Hcan. apply fexp_mono.
    assert (Zdigits2 m <= Zpos (digits2_pos ma) + (ea - e)); [|lia].
    apply Zdigits2_le; [|lia].
    split; [assumption|].
    rewrite Z.pow_add_r by lia.
    destruct (digits2_pos_bounds ma) as [_ Hhi].
    assert (0 < 2 ^ (ea - e)) by (apply Z.pow_pos_nonneg; lia).
    nia. }
  destruct (Z_le_gt_dec n 0) as [Hn0|Hn0].
  - assert (Hshr : shr (Build_shr_record m false false) e n = (Build_shr_record m false false, e))
      by (destruct n; [reflexivity|lia|reflexivity]).
    rewrite Hshr. cbn [shr_m loc_of_shr_record round_nearest_even].
    repeat split; assumption.
  - pose proof (shr_below m e n (Zpos ma * 2 ^ (ea - (e + n))) Hm ltac:(lia)) as H.
    destruct (shr (Build_shr_record m false false) e n) as [r e'].
    destruct H as (-> & H1 & H2 & H3); [|auto].
    rewrite <- Z.mul_assoc, <- Z.pow_add_r by lia.
    replace (ea - (e + n) + n) with (ea - e) by lia. exact Hle.
Qed.

Lemma binary_round_aux_below (m : positive) (e : Z) (ma : positive) (ea : Z) :
  e <= ea -> Zpos m <= Zpos ma * 2 ^ (ea - e) ->
  canonical_mantissa F32.prec F32.emax ma ea = true ->
  ea <= F32.emax - F32.prec ->
  SFleb (binary_round_aux F32.prec F32.emax false (Zpos m) e loc_Exact) (S754_finite false ma ea) = true.
Proof.
  intros He Hle Hcan Hea. unfold binary_round_aux.
  pose proof (shr_fexp_below (Zpos m) e ma ea ltac:(lia) He Hle Hcan) as H1.
  destruct (shr_fexp F32.prec F32.emax (Zpos m) e loc_Exact) as [r1 e1].
  destruct H1 as (He1 & Hr1 & _ & Hround).
  pose proof (round_nearest_even_ge r1) as Hge.
  set (m1 := round_nearest_even (shr_m r1) (loc_of_shr_record r1)) in *.
  pose proof (shr_fexp_below m1 e1 ma ea ltac:(lia) He1 Hround Hcan) as H2.
  destruct (shr_fexp F32.prec F32.emax m1 e1 loc_Exact) as [r2 e2].
  destruct H2 as (He2 & Hr2 & Hm2 & _).
  destruct (shr_m r2) as [|m2|m2]; [reflexivity| |lia].
  replace (e2 <=? F32.emax - F32.prec) with true by (symmetry; apply Z.leb_le; lia).
  unfold SFleb, SFcompare.
  destruct (Z.compare_spec e2 ea) as [Heq|Hlt|Hgt]; [|reflexivity|lia].
  subst e2. rewrite Z.sub_diag, Z.pow_0_r, Z.mul_1_r in Hm2.
  change (Pos.compare_cont Eq m2 ma) with (Pos.compare m2 ma).
  destruct (Pos.compare_spec m2 ma); [reflexivity|reflexivity|lia].
Qed.

Lemma one_eq : F32.one = S754_finite false 8388608 (-23).
Proof. vm_compute. reflexivity. Qed.

(** A valid float in [[0,1]] is a zero or [m * 2^e] with [m <= 2^(-e)]. *)
Lemma unitInterval_inv (x : spec_float) :
  unitInterval x = true ->
  (exists s, x = S754_zero s) \/
  (exists m e, x = S754_finite false m e /\ e <= 0 /\ Zpos m <= 2 ^ (- e) /\
               canonical_mantissa F32.prec F32.emax m e = true /\ e <= F32.emax - F32.prec).
Proof.
  unfold unitInterval, F32.valid, F32.leb, F32.zero. rewrite one_eq. intros H.
  apply andb_prop in H as [H H1]. apply andb_prop in H as [Hv H0].
  destruct x as [s|s| |[|] m e];
    [left; eauto|destruct s; discriminate|discriminate|discriminate|].
  right. exists m, e. cbn [valid_binary] in Hv. unfold bounded in Hv.
  apply andb_prop in Hv as [Hcan Hb]. apply Z.leb_le in Hb.
  split; [reflexivity|].
  assert (He : e < -23 \/ e = -23 /\ Zpos m <= 2 ^ 23).
  { unfold SFleb, SFcompare in H1.
    destruct (Z.compare_spec e (-23)) as [Heq|Hlt|Hgt]; [|left; lia|discriminate].
    right. split; [exact Heq|].
    change (2 ^ 23) with (Zpos 8388608). apply Pos2Z.pos_le_pos.
    unfold Pos.le, Pos.compare. intros E. rewrite E in H1. discriminate. }
  repeat split; try assumption; try lia.
  destruct He as [Hlt|[-> Hm]]; [|exact Hm].
  pose proof (canonical_exponent m e Hcan) as Hfe.
  destruct (digits2_pos_bounds m) as [_ Hhi].
  assert (Hd : Zpos (digits2_pos m) <= 24) by (unfold fexp, emin, F32.prec, F32.emax in Hfe; lia).
  assert (2 ^ Zpos (digits2_pos m) <= 2 ^ (- e)) by (apply Z.pow_le_mono_r; lia).
  lia.
Qed.

Lemma SFmul_comm (a d : spec_float) :
  SFmul F32.prec F32.emax a d = SFmul F32.prec F32.emax d a.
Proof.
  destruct a as [sa|sa| |sa ma ea], d as [sd|sd| |sd md ed]; cbn [SFmul];
    rewrite ?(xorb_comm sa sd); try reflexivity.
  rewrite (Pos.mul_comm ma md), (Z.add_comm ea ed). reflexivity.
Qed.

(** The rounded product of two numbers of [[0,1]] exceeds neither. *)
Lemma F32_mul_le_l (a d : F32.float) :
  unitInterval a = true -> unitInterval d = true ->
  F32.leb (F32.mul a d) a = true.
Proof.
  intros Ha Hd. unfold F32.leb, F32.mul.
  destruct (unitInterval_inv a Ha) as [[sa ->]|(ma & ea & -> & Hea & Hma & Hcana & Hba)];
  destruct (unitInterval_inv d Hd) as [[sd ->]|(md & ed & -> & Hed & Hmd & Hcand & Hbd)];
  try reflexivity.
  cbn [SFmul xorb].
  apply binary_round_aux_below; try assumption; [lia|].
  replace (ea - (ea + ed)) with (- ed) by lia.
  rewrite Pos2Z.inj_mul. nia.
Qed.

Lemma F32_mul_le_r (a d : F32.float) :
  unitInterval a = true -> unitInterval d = true ->
  F32.leb (F32.mul a d) d = true.
Proof.
  intros Ha Hd. unfold F32.mul. rewrite SFmul_comm. apply F32_mul_le_l; assumption.
Qed.

Lemma attenuate_channelsLe (a d : Vec3f) :
  unitColor a = true -> unitColor d = true ->
  channelsLe (attenuate a d) a = true /\ channelsLe (attenuate a d) d = true.
Proof.
  unfold unitColor, channelsLe, attenuate. cbn [e0 e1 e2]. intros Ha Hd.
  apply andb_prop in Ha as [Ha Ha2]. apply andb_prop in Ha as [Ha0 Ha1].
  apply andb_prop in Hd as [Hd Hd2]. apply andb_prop in Hd as [Hd0 Hd1].
  rewrite !F32_mul_le_l, !F32_mul_le_r by assumption. split; reflexivity.
Qed.

Ltac compare_cases :=
  repeat match goal with
  | H : context [Pos.compare_cont Eq ?a ?b] |- _ =>
    change (Pos.compare_cont Eq a b) with (Pos.compare a b) in H
  | |- context [Pos.compare_cont Eq ?a ?b] =>
    change (Pos.compare_cont Eq a b) with (Pos.compare a b)
  | H : context [Z.compare ?a ?b] |- _ => destruct (Z.compare_spec a b)
  | |- context [Z.compare ?a ?b] => destruct (Z.compare_spec a b)
  | H : context [Pos.compare ?a ?b] |- _ => destruct (Pos.compare_spec a b)
  | |- context [Pos.compare ?a ?b] => destruct (Pos.compare_spec a b)
  end.

Lemma SFltb_irrefl (x : spec_float) : SFltb x x = false.
Proof.
  unfold SFltb, SFcompare.
  destruct x as [s|s| |s m e]; try destruct s; try reflexivity;
    compare_cases; cbn [CompOpp]; try reflexivity; lia.
Qed.

Lemma SFltb_trans (x y z : spec_float) :
  SFltb x y = true -> SFltb y z = true -> SFltb x z = true.
Proof.
  unfold SFltb, SFcompare.
  destruct x as [sx|sx| |sx mx ex], y as [sy|sy| |sy my ey], z as [sz|sz| |sz mz ez];
    try destruct sx; try destruct sy; try destruct sz;
    try discriminate; try reflexivity; intros Hxy Hyz;
    compare_cases; cbn [CompOpp] in *; subst; try discriminate; try reflexivity; try lia.
Qed.

(* ================================================================== *)
(** * Products stay in the format *)

Lemma Zdigits2_bounds (m : Z) :
  0 < m -> 2 ^ (Zdigits2 m - 1) <= m < 2 ^ Zdigits2 m.
Proof.
  destruct m as [|p|p]; [lia| |lia]. intros _. apply digits2_pos_bounds.
Qed.

Lemma Zdigits2_pos (m : Z) : 0 < m -> 0 < Zdigits2 m.
Proof. destruct m as [|p|p]; cbn; lia. Qed.

Lemma Zdigits2_ge (m k : Z) : 0 <= k -> 2 ^ k <= m -> k < Zdigits2 m.
Proof.
  intros Hk Hle.
  assert (Hm : 0 < m) by (pose proof (Z.pow_pos_nonneg 2 k ltac:(lia) Hk); lia).
  destruct (Zdigits2_bounds m Hm) as [_ Hhi].
  destruct (Z_lt_le_dec k (Zdigits2 m)) as [|Hge]; [assumption|exfalso].
  assert (2 ^ Zdigits2 m <= 2 ^ k) by (apply Z.pow_le_mono_r; lia). lia.
Qed.

Lemma Zdigits2_div (m n : Z) :
  0 < m -> 0 <= n < Zdigits2 m -> Zdigits2 (m / 2 ^ n) = Zdigits2 m - n.
Proof.
  intros Hm Hn. destruct (Zdigits2_bounds m Hm) as [Hlo Hhi].
  assert (Hp : 0 < 2 ^ n) by (apply Z.pow_pos_nonneg; lia).
  assert (Hq1 : 2 ^ (Zdigits2 m - n - 1) <= m / 2 ^ n).
  { apply Z.div_le_lower_bound; [exact Hp|].
    rewrite <- Z.pow_add_r by lia. replace (n + (Zdigits2 m - n - 1)) with (Zdigits2 m - 1) by lia.
    exact Hlo. }
  assert (Hq2 : m / 2 ^ n < 2 ^ (Zdigits2 m - n)).
  { apply Z.div_lt_upper_bound; [exact Hp|].
    rewrite <- Z.pow_add_r by lia. replace (n + (Zdigits2 m - n)) with (Zdigits2 m) by lia.
    exact Hhi. }
  apply Z.le_antisymm.
  - apply Zdigits2_le; [|lia]. split; [|exact Hq2].
    apply Z.div_pos; lia.
  - pose proof (Zdigits2_ge (m / 2 ^ n) (Zdigits2 m - n - 1) ltac:(lia) Hq1). lia.
Qed.

Lemma Zdigits2_small_div (m n : Z) :
  0 < m -> Zdigits2 m <= n -> m / 2 ^ n = 0.
Proof.
  intros Hm Hn. destruct (Zdigits2_bounds m Hm) as [_ Hhi].
  pose proof (Zdigits2_pos m Hm).
  apply Z.div_small. split; [lia|].
  assert (2 ^ Zdigits2 m <= 2 ^ n) by (apply Z.pow_le_mono_r; lia). lia.
Qed.

Lemma Zdigits2_succ (q : Z) :
  0 < q -> Zdigits2 q <= Zdigits2 (q + 1) <= Zdigits2 q + 1.
Proof.
  intros Hq. destruct (Zdigits2_bounds q Hq) as [Hlo Hhi].
  pose proof (Zdigits2_pos q Hq). split.
  - pose proof (Zdigits2_ge (q + 1) (Zdigits2 q - 1) ltac:(lia) ltac:(lia)). lia.
  - apply Zdigits2_le; [|lia]. split; [lia|].
    rewrite Z.pow_add_r, Z.pow_1_r by lia. lia.
Qed.

Lemma Zdigits2_mul (a b : Z) :
  0 < a -> 0 < b -> Zdigits2 a + Zdigits2 b - 1 <= Zdigits2 (a * b).
Proof.
  intros Ha Hb.
  destruct (Zdigits2_bounds a Ha) as [Hla _]. destruct (Zdigits2_bounds b Hb) as [Hlb _].
  pose proof (Zdigits2_pos a Ha). pose proof (Zdigits2_pos b Hb).
  assert (Hle : 2 ^ (Zdigits2 a + Zdigits2 b - 2) <= a * b).
  { replace (Zdigits2 a + Zdigits2 b - 2) with ((Zdigits2 a - 1) + (Zdigits2 b - 1)) by lia.
    rewrite Z.pow_add_r by lia.
    assert (0 < 2 ^ (Zdigits2 a - 1)) by (apply Z.pow_pos_nonneg; lia).
    assert (0 < 2 ^ (Zdigits2 b - 1)) by (apply Z.pow_pos_nonneg; lia).
    nia. }
  pose proof (Zdigits2_ge (a * b) (Zdigits2 a + Zdigits2 b - 2) ltac:(lia) Hle). lia.
Qed.

(** What [shr] makes of an exact record. *)
Lemma shr_exact (m0 e n : Z) :
  0 <= m0 ->
  let '(r, e') := shr (Build_shr_record m0 false false) e n in
  e' = e + Z.max 0 n /\ shr_m r = m0 / 2 ^ Z.max 0 n.
Proof.
  intros Hm0. destruct n as [|p|p]; cbn [shr].
  - cbn. rewrite Z.div_1_r. lia.
  - rewrite iter_pos_nat.
    destruct (shr_iter m0 (Pos.to_nat p) Hm0) as [Hm _].
    change (Nat.iter (Pos.to_nat p) shr_1 (Build_shr_record m0 false false))
      with (halvings m0 (Pos.to_nat p)).
    rewrite positive_nat_Z in Hm. rewrite Z.max_r by lia. split; [reflexivity|exact Hm].
  - rewrite Z.max_l by lia. cbn [shr_m]. rewrite Z.pow_0_r, Z.div_1_r. lia.
Qed.

(** What [shr_fexp] makes of an exact mantissa. *)
Lemma shr_fexp_exact (m e : Z) :
  0 <= m ->
  let '(r, e') := shr_fexp F32.prec F32.emax m e loc_Exact in
  e' = e + Z.max 0 (fexp F32.prec F32.emax (Zdigits2 m + e) - e) /\
  shr_m r = m / 2 ^ Z.max 0 (fexp F32.prec F32.emax (Zdigits2 m + e) - e).
Proof.
  intros Hm. unfold shr_fexp. cbn [shr_record_of_loc].
  apply (shr_exact m e _ Hm).
Qed.

(** A [shr_fexp] that keeps at least one digit gives a canonical mantissa. *)
Lemma shr_fexp_canonical (m e : Z) :
  0 < m ->
  0 <= fexp F32.prec F32.emax (Zdigits2 m + e) - e < Zdigits2 m ->
  let '(r, e') := shr_fexp F32.prec F32.emax m e loc_Exact in
  0 < shr_m r /\ fexp F32.prec F32.emax (Zdigits2 (shr_m r) + e') = e'.
Proof.
  intros Hm Hn.
  pose proof (shr_fexp_exact m e ltac:(lia)) as H.
  destruct (shr_fexp F32.prec F32.emax m e loc_Exact) as [r e'].
  set (n := fexp F32.prec F32.emax (Zdigits2 m + e) - e) in *.
  destruct H as [-> Hr]. rewrite Z.max_r in * by lia. rewrite Hr.
  pose proof (Zdigits2_div m n Hm ltac:(lia)) as Hd. rewrite Hd.
  split.
  - assert (0 <= m / 2 ^ n) by (apply Z.div_pos; [lia|apply Z.pow_pos_nonneg; lia]).
    destruct (Z.eq_dec (m / 2 ^ n) 0) as [Hz|]; [|lia].
    rewrite Hz in Hd. change (Zdigits2 0) with 0 in Hd. lia.
  - replace (Zdigits2 m - n + (e + n)) with (Zdigits2 m + e) by lia. unfold n. lia.
Qed.

(** Rounding a mantissa long enough for its exponent stays in the format. *)
Lemma binary_round_aux_valid (sx : bool) (m : positive) (e : Z) :
  e <= fexp F32.prec F32.emax (Zpos (digits2_pos m) + e) ->
  valid_binary F32.prec F32.emax (binary_round_aux F32.prec F32.emax sx (Zpos m) e loc_Exact) = true.
Proof.
  intros Hn1. unfold binary_round_aux.
  pose proof (shr_fexp_exact (Zpos m) e ltac:(lia)) as H1.
  destruct (shr_fexp F32.prec F32.emax (Zpos m) e loc_Exact) as [r1 e1].
  change (Zdigits2 (Zpos m)) with (Zpos (digits2_pos m)) in H1.
  set (D := Zpos (digits2_pos m) + e) in *.
  set (n1 := fexp F32.prec F32.emax D - e) in *.
  destruct H1 as [He1 Hq]. rewrite Z.max_r in He1, Hq by lia.
  pose proof (round_nearest_even_le r1) as Hle.
  pose proof (round_nearest_even_ge r1) as Hge.
  set (m1 := round_nearest_even (shr_m r1) (loc_of_shr_record r1)) in *.
  assert (Hq0 : 0 <= shr_m r1)
    by (rewrite Hq; apply Z.div_pos; [lia|apply Z.pow_pos_nonneg; lia]).
  assert (Hm1 : shr_m r1 <= m1 <= shr_m r1 + 1) by (destruct (inexact r1); lia).
  assert (Hfe1 : e1 = fexp F32.prec F32.emax D) by (unfold n1 in He1; lia).
  destruct (Z.eq_dec m1 0) as [Hz|Hnz].
  { rewrite Hz.
    pose proof (shr_fexp_exact 0 e1 ltac:(lia)) as H2.
    destruct (shr_fexp F32.prec F32.emax 0 e1 loc_Exact) as [r2 e2].
    destruct H2 as [_ Hr2]. rewrite Z.div_0_l in Hr2
      by (apply Z.pow_nonzero; lia). rewrite Hr2. reflexivity. }
  assert (Hm1pos : 0 < m1) by lia.
  assert (Hn2 : 0 <= fexp F32.prec F32.emax (Zdigits2 m1 + e1) - e1 < Zdigits2 m1).
  { pose proof (Zdigits2_pos m1 Hm1pos) as Hd1.
    destruct (Z_lt_le_dec n1 (Zpos (digits2_pos m))) as [Hlt|Hge1].
    - assert (Hdq : Zdigits2 (shr_m r1) = Zpos (digits2_pos m) - n1).
      { rewrite Hq. apply (Zdigits2_div (Zpos m) n1); [lia|].
        change (Zdigits2 (Zpos m)) with (Zpos (digits2_pos m)). lia. }
      assert (Hqpos : 0 < shr_m r1).
      { destruct (Z.eq_dec (shr_m r1) 0) as [Hz|]; [|lia]. rewrite Hz in Hdq. change (Zdigits2 0) with 0 in Hdq. lia. }
      assert (Hd : Zdigits2 (shr_m r1) <= Zdigits2 m1 <= Zdigits2 (shr_m r1) + 1).
      { destruct (Z.eq_dec m1 (shr_m r1)) as [->|Hne]; [lia|].
        replace m1 with (shr_m r1 + 1) by lia. apply Zdigits2_succ. exact Hqpos. }
      unfold n1, D, fexp, emin, F32.prec, F32.emax in *. lia.
    - assert (Hqz : shr_m r1 = 0).
      { rewrite Hq. apply Zdigits2_small_div; [lia|].
        change (Zdigits2 (Zpos m)) with (Zpos (digits2_pos m)). exact Hge1. }
      assert (Hone : m1 = 1) by lia. rewrite Hone in *. cbn [Zdigits2 digits2_pos] in *.
      unfold n1, D, fexp, emin, F32.prec, F32.emax in *. lia. }
  pose proof (shr_fexp_canonical m1 e1 Hm1pos Hn2) as H2.
  destruct (shr_fexp F32.prec F32.emax m1 e1 loc_Exact) as [r2 e2].
  destruct H2 as [Hpos Hcan].
  destruct (shr_m r2) as [|m2|m2]; [reflexivity| |lia].
  destruct (e2 <=? F32.emax - F32.prec) eqn:Eb; [|reflexivity].
  cbn [valid_binary]. unfold bounded, canonical_mantissa.
  change (Zdigits2 (Zpos m2)) with (Zpos (digits2_pos m2)) in Hcan.
  rewrite Hcan, Z.eqb_refl, Eb. reflexivity.
Qed.

Lemma SFmul_valid (a d : spec_float) :
  valid_binary F32.prec F32.emax a = true ->
  valid_binary F32.prec F32.emax d = true ->
  valid_binary F32.prec F32.emax (SFmul F32.prec F32.emax a d) = true.
Proof.
  intros Ha Hd.
  destruct a as [sa|sa| |sa ma ea], d as [sd|sd| |sd md ed]; try reflexivity.
  cbn [SFmul]. apply binary_round_aux_valid.
  cbn [valid_binary] in Ha, Hd. unfold bounded in Ha, Hd.
  apply andb_prop in Ha as [Ha _]. apply andb_prop in Hd as [Hd _].
  apply canonical_exponent in Ha, Hd.
  pose proof (Zdigits2_mul (Zpos ma) (Zpos md) ltac:(lia) ltac:(lia)) as Hmul.
  change (Zdigits2 (Zpos ma)) with (Zpos (digits2_pos ma)) in Hmul.
  change (Zdigits2 (Zpos md)) with (Zpos (digits2_pos md)) in Hmul.
  change (Zdigits2 (Zpos ma * Zpos md)) with (Zpos (digits2_pos (ma * md))) in Hmul.
  unfold fexp, emin, F32.prec, F32.emax in *. lia.
Qed.

(* ================================================================== *)
(** * Properties of the integrator *)

Lemma Int_sub_1 (n : Z) :
  Int.min_value < n <= Int.max_value -> Int.sub n 1 = n - 1.
Proof.
  unfold Int.sub, Int.wrap, Int.min_value, Int.max_value. intros H.
  rewrite Z.mod_small; lia.
Qed.

Section IntegratorFacts.

Context {World MaterialPtr : Type}.
Variable env : Collaborators World MaterialPtr.


(** Unfolding of one activation of [ComputeRayColor]. *)
Lemma ComputeRayColor_step (fuel : nat) (i_ray : Ray) (n : Z) (objs : SceneObjectPtrs World MaterialPtr) (w : World) :
  ComputeRayColor env (S fuel) i_ray n objs w =
  if n =? 0 then Some (black, w)
  else
    let '(s, w1) := scan env i_ray objs w in
    if objectHit s
    then
      let '((scattered, attenuation, scatteredRay), w2) :=
        Scatter (material_at env (m_material (record s))) i_ray (record s) w1 in
      if scattered
      then
        match ComputeRayColor env fuel scatteredRay (Int.sub n 1) objs w2 with
        | Some (descendentColor, w3) => Some (attenuate attenuation descendentColor, w3)
        | None => None
        end
      else Some (black, w2)
    else Some (backgroundColor env i_ray, w1).
Proof. reflexivity. Qed.

(** More fuel never changes a result. *)
Lemma ComputeRayColor_fuel_mono (fuel fuel' : nat) :
  (fuel <= fuel')%nat ->
  forall i_ray n (objs : SceneObjectPtrs World MaterialPtr) w r,
    ComputeRayColor env fuel i_ray n objs w = Some r ->
    ComputeRayColor env fuel' i_ray n objs w = Some r.
Proof.
  revert fuel'. induction fuel as [|fuel IH]; intros fuel' Hle i_ray n objs w r H.
  - discriminate.
  - destruct fuel' as [|fuel']; [lia|].
    rewrite ComputeRayColor_step in *.
    destruct (n =? 0); [exact H|].
    destruct (scan env i_ray objs w) as [s w1].
    destruct (objectHit s); [|exact H].
    destruct (Scatter _ i_ray (record s) w1) as [[[scattered att] sray] w2].
    destruct scattered; [|exact H].
    destruct (ComputeRayColor env fuel sray (Int.sub n 1) objs w2) as [[d w3]|] eqn:E;
      [|discriminate].
    rewrite (IH fuel' ltac:(lia) _ _ _ _ _ E). exact H.
Qed.

(** C1. With a bounce budget of exactly 0 the integrator returns black
    [(0,0,0)] in its first activation, whatever the ray, the scene, the
    collaborators and the state of the random generator, which it leaves
    as it was. *)
Theorem zero_budget_is_black (fuel : nat) (i_ray : Ray) (objs : SceneObjectPtrs World MaterialPtr) (w : World) :
  ComputeRayColor env (S fuel) i_ray 0 objs w = Some (black, w) /\
  black = mkVec3f (S754_zero false) (S754_zero false) (S754_zero false).
Proof. split; reflexivity. Qed.

(** C6. When the scan found a hit and the material of the nearest hit
    reports failure, the integrator returns black in the same activation:
    one unit of fuel is enough, so no nested call is made.  Each of the
    three ending paths (exhausted budget, escape to the background,
    absorption) yields a colour within a single activation. *)
Theorem absorbed_ray_is_black (fuel : nat) (i_ray : Ray) (n : Z) (objs : SceneObjectPtrs World MaterialPtr) (w : World) :
  (n <> 0 ->
   objectHit (fst (scan env i_ray objs w)) = true ->
   fst (fst (fst (Scatter (material_at env (m_material (record (fst (scan env i_ray objs w)))))
                          i_ray (record (fst (scan env i_ray objs w)))
                          (snd (scan env i_ray objs w))))) = false ->
   ComputeRayColor env (S fuel) i_ray n objs w =
   Some (black,
         snd (Scatter (material_at env (m_material (record (fst (scan env i_ray objs w)))))
                      i_ray (record (fst (scan env i_ray objs w)))
                      (snd (scan env i_ray objs w))))) /\
  (n <> 0 ->
   objectHit (fst (scan env i_ray objs w)) = false ->
   ComputeRayColor env (S fuel) i_ray n objs w =
   Some (backgroundColor env i_ray, snd (scan env i_ray objs w))) /\
  (n = 0 -> ComputeRayColor env (S fuel) i_ray n objs w = Some (black, w)).
Proof.
  rewrite ComputeRayColor_step.
  destruct (scan env i_ray objs w) as [s w1]; cbn [fst snd].
  repeat split.
  - intros Hn Hhit Hfail. apply Z.eqb_neq in Hn. rewrite Hn, Hhit.
    destruct (Scatter _ i_ray (record s) w1) as [[[scattered att] sray] w2].
    cbn [fst snd] in *. subst scattered. reflexivity.
  - intros Hn Hmiss. apply Z.eqb_neq in Hn. rewrite Hn, Hmiss. reflexivity.
  - intros ->. reflexivity.
Qed.

(** Within [n + 1] activations a budget [n] that is not negative is used
    up. *)
Lemma ComputeRayColor_total (i_ray : Ray) (n : Z) (objs : SceneObjectPtrs World MaterialPtr)
      (w : World) (fuel : nat) :
  0 <= n <= Int.max_value ->
  (Z.to_nat n < fuel)%nat ->
  exists c w', ComputeRayColor env fuel i_ray n objs w = Some (c, w').
Proof.
  intros Hn Hfuel.
  cut (exists c w', ComputeRayColor env (S (Z.to_nat n)) i_ray n objs w = Some (c, w')).
  { intros (c & w' & H). exists c, w'.
    eapply ComputeRayColor_fuel_mono; [|exact H]. lia. }
  clear Hfuel fuel.
  remember (Z.to_nat n) as k eqn:Hk.
  revert n Hn Hk i_ray w.
  induction k as [|k IH]; intros n Hn Hk i_ray w; rewrite ComputeRayColor_step.
  - replace n with 0 by lia. cbn. eauto.
  - destruct (Z.eqb_spec n 0) as [->|Hne]; [eauto|].
    destruct (scan env i_ray objs w) as [s w1].
    destruct (objectHit s); [|eauto].
    destruct (Scatter _ i_ray (record s) w1) as [[[scattered att] sray] w2].
    destruct scattered; [|eauto].
    rewrite Int_sub_1 by (unfold Int.min_value, Int.max_value in *; lia).
    destruct (IH (n - 1) ltac:(lia) ltac:(lia) sray w2) as (d & w3 & ->).
    eauto.
Qed.

(** C5, amended.  For a bounce limit [n] with [0 <= n] the integrator
    returns a colour whatever the scene, and [n + 1] nested activations are
    enough: the depth of the recursion is bounded by the limit. *)
Theorem nonnegative_budget_terminates (i_ray : Ray) (n : Z)
        (objs : SceneObjectPtrs World MaterialPtr) (w : World) (fuel : nat) :
  0 <= n <= Int.max_value ->
  (Z.to_nat n < fuel)%nat ->
  (exists c w', ComputeRayColor env fuel i_ray n objs w = Some (c, w')) /\
  (exists c w', ComputeRayColor env (S (Z.to_nat n)) i_ray n objs w = Some (c, w')).
Proof.
  intros Hn Hfuel. split.
  - exact (ComputeRayColor_total i_ray n objs w fuel Hn Hfuel).
  - apply (ComputeRayColor_total i_ray n objs w (S (Z.to_nat n)) Hn). lia.
Qed.

(** C2. When the scan found a hit and the material scattered the ray, the
    colour for budget [n] is the componentwise product (a product, not a
    sum) of the attenuation with the colour of the scattered ray at
    budget [n - 1]: the two runs end together, and for a positive budget
    they do end, within [n] activations for the scattered ray, the nested
    call returning a colour and the outer one the product with it; and
    whenever every channel of the two factors is a binary32 number of
    [[0,1]], every channel of that product is at most the same channel of
    either factor. *)
Theorem scattered_ray_attenuates (fuel : nat) (i_ray : Ray) (n : Z)
        (objs : SceneObjectPtrs World MaterialPtr) (w : World)
        (s : ScanState MaterialPtr) (w1 w2 : World)
        (attenuation : Vec3f) (scatteredRay : Ray) :
  n <> 0 ->
  Int.min_value < n <= Int.max_value ->
  scan env i_ray objs w = (s, w1) ->
  objectHit s = true ->
  Scatter (material_at env (m_material (record s))) i_ray (record s) w1 =
    ((true, attenuation, scatteredRay), w2) ->
  ComputeRayColor env (S fuel) i_ray n objs w =
  match ComputeRayColor env fuel scatteredRay (n - 1) objs w2 with
  | Some (descendentColor, w3) =>
    Some (mkVec3f (F32.mul (e0 attenuation) (e0 descendentColor))
                  (F32.mul (e1 attenuation) (e1 descendentColor))
                  (F32.mul (e2 attenuation) (e2 descendentColor)), w3)
  | None => None
  end /\
  (0 < n -> (Z.to_nat n <= fuel)%nat ->
   exists (descendentColor : Vec3f) (w3 : World),
     ComputeRayColor env fuel scatteredRay (n - 1) objs w2 = Some (descendentColor, w3) /\
     ComputeRayColor env (S fuel) i_ray n objs w =
     Some (mkVec3f (F32.mul (e0 attenuation) (e0 descendentColor))
                   (F32.mul (e1 attenuation) (e1 descendentColor))
                   (F32.mul (e2 attenuation) (e2 descendentColor)), w3)) /\
  forall a d : Vec3f,
    unitColor a = true -> unitColor d = true ->
    channelsLe (mkVec3f (F32.mul (e0 a) (e0 d)) (F32.mul (e1 a) (e1 d))
                        (F32.mul (e2 a) (e2 d))) a = true /\
    channelsLe (mkVec3f (F32.mul (e0 a) (e0 d)) (F32.mul (e1 a) (e1 d))
                        (F32.mul (e2 a) (e2 d))) d = true.
Proof.
  intros Hn Hr Hscan Hhit Hsc.
  assert (Hstep : ComputeRayColor env (S fuel) i_ray n objs w =
                  match ComputeRayColor env fuel scatteredRay (n - 1) objs w2 with
                  | Some (descendentColor, w3) =>
                    Some (mkVec3f (F32.mul (e0 attenuation) (e0 descendentColor))
                                  (F32.mul (e1 attenuation) (e1 descendentColor))
                                  (F32.mul (e2 attenuation) (e2 descendentColor)), w3)
                  | None => None
                  end).
  { rewrite ComputeRayColor_step, Hscan, Hhit, Hsc.
    apply Z.eqb_neq in Hn. rewrite Hn, Int_sub_1 by exact Hr. reflexivity. }
  split; [exact Hstep|]. split.
  - intros Hpos Hfuel.
    destruct (ComputeRayColor_total scatteredRay (n - 1) objs w2 fuel
                                    ltac:(lia) ltac:(lia)) as (d & w3 & Hd).
    exists d, w3. split; [exact Hd|]. rewrite Hstep, Hd. reflexivity.
  - intros a d. apply attenuate_channelsLe.
Qed.

(** C3, amended.  For a ray that hits no scene object, with a budget other
    than 0, the colour is the linear interpolation between white
    [(1,1,1)] and sky blue [(0.5,0.7,1.0)] at the weight
    [0.5 * d.y + 1.0], where [d] is the direction of the ray as it was
    passed (the integrator does not normalize it); the weight is not
    clamped: a ray of direction [(0,1,0)] in an empty scene gets the
    interpolated colour at weight 1.5. *)
Theorem escaped_ray_is_background (fuel : nat) (i_ray : Ray) (n : Z)
        (objs : SceneObjectPtrs World MaterialPtr) (w : World) :
  n <> 0 ->
  objectHit (fst (scan env i_ray objs w)) = false ->
  ComputeRayColor env (S fuel) i_ray n objs w =
  Some (LinearInterpolation env
          (mkVec3f F32.one F32.one F32.one)
          (mkVec3f F32.half (float_of_double (F64.of_ratio 7 10)) F32.one)
          (float_of_double
             (F64.add (double_of_float (F32.mul F32.half (e1 (Direction i_ray)))) F64.one)),
        snd (scan env i_ray objs w)) /\
  forall origin : Vec3f,
    ComputeRayColor env (S fuel) (mkRay origin (mkVec3f F32.zero F32.one F32.zero)) n [] w =
    Some (LinearInterpolation env
            (mkVec3f F32.one F32.one F32.one)
            (mkVec3f F32.half (float_of_double (F64.of_ratio 7 10)) F32.one)
            (F32.of_scaled 3 (-1)), w).
Proof.
  intros Hn Hmiss. apply Z.eqb_neq in Hn. split.
  - rewrite ComputeRayColor_step, Hn.
    destruct (scan env i_ray objs w) as [s w1]. cbn [fst snd] in *.
    rewrite Hmiss. reflexivity.
  - intros origin. rewrite ComputeRayColor_step, Hn. reflexivity.
Qed.

End IntegratorFacts.

(* ================================================================== *)
(** * The intersection scan *)

Section ScanFacts.

Context {World MaterialPtr : Type}.

Implicit Types (o : SceneObject World MaterialPtr) (objs : SceneObjectPtrs World MaterialPtr).
Implicit Types (s : ScanState MaterialPtr) (w : World) (h : HitRecord MaterialPtr).

Lemma scanFrom_cons {W : Type} (i_ray : Ray) (o : SceneObject W MaterialPtr)
      (objs : SceneObjectPtrs W MaterialPtr) (st : ScanState MaterialPtr * W) :
  scanFrom i_ray (o :: objs) st = scanFrom i_ray objs (scanStep i_ray st o).
Proof. reflexivity. Qed.

Lemma scanFrom_app (i_ray : Ray) objs objs' (st : ScanState MaterialPtr * World) :
  scanFrom i_ray (objs ++ objs') st = scanFrom i_ray objs' (scanFrom i_ray objs st).
Proof. apply fold_left_app. Qed.

Lemma scanEvents_app (i_ray : Ray) objs objs' (st : ScanState MaterialPtr * World) :
  scanEvents i_ray (objs ++ objs') st =
  scanEvents i_ray objs st ++ scanEvents i_ray objs' (scanFrom i_ray objs st).
Proof.
  revert st. induction objs as [|o objs IH]; intros st; [reflexivity|].
  cbn [app scanEvents]. rewrite IH. reflexivity.
Qed.

Lemma scanEvents_length (i_ray : Ray) objs (st : ScanState MaterialPtr * World) :
  List.length (scanEvents i_ray objs st) = List.length objs.
Proof.
  revert st. induction objs as [|o objs IH]; intros st; [reflexivity|].
  cbn [scanEvents List.length]. rewrite IH. reflexivity.
Qed.

Lemma hitAnswers_app (a b : list (Event MaterialPtr)) :
  hitAnswers (a ++ b) = hitAnswers a ++ hitAnswers b.
Proof. apply flat_map_app. Qed.

(** The locals of the scan are a function of the answers of [Hit]. *)
Lemma scanStep_replay (i_ray : Ray) o (st : ScanState MaterialPtr * World) :
  fst (scanStep i_ray st o) =
  replayStep (fst st)
    (fst (Hit o i_ray (mkFloatRange shadowAcneBound (nearestHitMagnitude (fst st)))
              (record (fst st)) (snd st))).
Proof.
  destruct st as [s w]. unfold scanStep, replayStep. cbn [fst snd].
  destruct (Hit o i_ray _ (record s) w) as [[hit r] w']. cbn [fst snd].
  destruct hit; reflexivity.
Qed.

Lemma scanFrom_replay (i_ray : Ray) objs (st : ScanState MaterialPtr * World) :
  fst (scanFrom i_ray objs st) = replayScan (fst st) (hitAnswers (scanEvents i_ray objs st)).
Proof.
  revert st. induction objs as [|o objs IH]; intros st; [reflexivity|].
  rewrite scanFrom_cons. cbn [scanEvents].
  rewrite IH, scanStep_replay. reflexivity.
Qed.

(** With hits reported inside the interval, the tracked magnitude is the
    smallest one reported. *)
Lemma scanFrom_nearest (i_ray : Ray) objs (st : ScanState MaterialPtr * World) :
  (forall o, In o objs -> hitsInside o) ->
  nearestHitMagnitude (fst (scanFrom i_ray objs st)) =
  smallestReported (nearestHitMagnitude (fst st)) (hitAnswers (scanEvents i_ray objs st)).
Proof.
  revert st. induction objs as [|o objs IH]; intros st Hin; [reflexivity|].
  rewrite scanFrom_cons. cbn [scanEvents].
  rewrite IH by (intros o' Ho'; apply Hin; right; exact Ho').
  rewrite scanStep_replay.
  pose proof (Hin o (or_introl eq_refl) i_ray
                  (mkFloatRange shadowAcneBound (nearestHitMagnitude (fst st)))
                  (record (fst st)) (snd st)) as Hinside.
  cbn [hitAnswers flat_map app smallestReported].
  destruct (fst (Hit o i_ray _ (record (fst st)) (snd st))) as [hit r].
  cbn [fst snd] in Hinside. unfold replayStep. cbn [fst snd].
  destruct hit; cbn [andb nearestHitMagnitude]; [|reflexivity].
  specialize (Hinside eq_refl). unfold inside in Hinside. cbn [Min Max] in Hinside.
  apply andb_prop in Hinside as [_ Hlt]. rewrite Hlt. reflexivity.
Qed.

(** ** Nearest roots *)

Lemma nearestRoot_inside (roots : list (HitRecord MaterialPtr)) :
  forall rg h, nearestRoot roots rg = Some h ->
               In h roots /\ inside rg (m_magnitude h) = true.
Proof.
  induction roots as [|h0 rest IH]; intros rg h; cbn [nearestRoot]; [discriminate|].
  destruct (inside rg (m_magnitude h0)) eqn:Hin0.
  - destruct (nearestRoot rest (mkFloatRange (Min rg) (m_magnitude h0))) as [h'|] eqn:E;
      intros [= <-].
    + destruct (IH _ _ E) as [Hmem Hin]. split; [right; exact Hmem|].
      unfold inside in *. cbn [Min Max] in Hin.
      apply andb_prop in Hin as [Hlo Hhi]. apply andb_prop in Hin0 as [_ Hhi0].
      rewrite Hlo. apply (SFltb_trans _ _ _ Hhi Hhi0).
    + split; [left; reflexivity|exact Hin0].
  - intros E. destruct (IH _ _ E) as [Hmem Hin]. split; [right; exact Hmem|exact Hin].
Qed.

Lemma nearestRoot_none (roots : list (HitRecord MaterialPtr)) :
  forall rg, nearestRoot roots rg = None ->
             forall h, In h roots -> inside rg (m_magnitude h) = false.
Proof.
  induction roots as [|h0 rest IH]; intros rg; cbn [nearestRoot]; [intros _ h []|].
  destruct (inside rg (m_magnitude h0)) eqn:Hin0.
  - destruct (nearestRoot rest (mkFloatRange (Min rg) (m_magnitude h0))); discriminate.
  - intros E h [<-|Hmem]; [exact Hin0|exact (IH _ E h Hmem)].
Qed.

Lemma nearestRoot_least (roots : list (HitRecord MaterialPtr)) :
  forall rg h, nearestRoot roots rg = Some h ->
               forall h', In h' roots -> inside rg (m_magnitude h') = true ->
                          F32.ltb (m_magnitude h') (m_magnitude h) = false.
Proof.
  induction roots as [|h0 rest IH]; intros rg h; cbn [nearestRoot]; [discriminate|].
  destruct (inside rg (m_magnitude h0)) eqn:Hin0.
  - destruct (nearestRoot rest (mkFloatRange (Min rg) (m_magnitude h0))) as [h1|] eqn:E;
      intros [= <-] h' Hmem Hin'.
    + destruct (nearestRoot_inside _ _ _ E) as [_ Hin1].
      unfold inside in Hin1. cbn [Min Max] in Hin1. apply andb_prop in Hin1 as [_ H10].
      destruct (F32.ltb (m_magnitude h') (m_magnitude h1)) eqn:Hlt; [exfalso|reflexivity].
      pose proof (SFltb_trans _ _ _ Hlt H10) as H'0.
      destruct Hmem as [<-|Hmem].
      * unfold F32.ltb in H'0. rewrite SFltb_irrefl in H'0. discriminate.
      * assert (Hin : inside (mkFloatRange (Min rg) (m_magnitude h0)) (m_magnitude h') = true).
        { unfold inside in *. cbn [Min Max]. apply andb_prop in Hin' as [Hlo _].
          rewrite Hlo. exact H'0. }
        rewrite (IH _ _ E h' Hmem Hin) in Hlt. discriminate.
    + destruct Hmem as [<-|Hmem]; [apply SFltb_irrefl|].
      destruct (F32.ltb (m_magnitude h') (m_magnitude h0)) eqn:Hlt; [exfalso|reflexivity].
      assert (Hin : inside (mkFloatRange (Min rg) (m_magnitude h0)) (m_magnitude h') = true).
      { unfold inside in *. cbn [Min Max]. apply andb_prop in Hin' as [Hlo _].
        rewrite Hlo. exact Hlt. }
      rewrite (nearestRoot_none _ _ E h' Hmem) in Hin. discriminate.
  - intros E h' [<-|Hmem] Hin'; [congruence|exact (IH _ _ E h' Hmem Hin')].
Qed.

Lemma nearestRoot_app (a b : list (HitRecord MaterialPtr)) :
  forall rg,
    nearestRoot (a ++ b) rg =
    match nearestRoot a rg with
    | Some h => Some match nearestRoot b (mkFloatRange (Min rg) (m_magnitude h)) with
                     | Some h' => h'
                     | None => h
                     end
    | None => nearestRoot b rg
    end.
Proof.
  induction a as [|h0 a IH]; intros rg; cbn [app nearestRoot]; [reflexivity|].
  destruct (inside rg (m_magnitude h0)).
  - rewrite IH. cbn [Min].
    destruct (nearestRoot a (mkFloatRange (Min rg) (m_magnitude h0))) as [h1|].
    + reflexivity.
    + destruct (nearestRoot b (mkFloatRange (Min rg) (m_magnitude h0))); reflexivity.
  - apply IH.
Qed.

(** With no two roots at the same parameter, the nearest root does not
    depend on the order of the roots. *)
Lemma nearestRoot_Permutation (a b : list (HitRecord MaterialPtr)) (rg : FloatRange) :
  Permutation a b ->
  (forall h h', In h a -> In h' a ->
                F32.ltb (m_magnitude h) (m_magnitude h') = false ->
                F32.ltb (m_magnitude h') (m_magnitude h) = false ->
                inside rg (m_magnitude h) = true ->
                inside rg (m_magnitude h') = true ->
                h = h') ->
  nearestRoot a rg = nearestRoot b rg.
Proof.
  intros Hperm Hties.
  destruct (nearestRoot a rg) as [h|] eqn:Ea, (nearestRoot b rg) as [h'|] eqn:Eb.
  - destruct (nearestRoot_inside _ _ _ Ea) as [Hmem Hin].
    destruct (nearestRoot_inside _ _ _ Eb) as [Hmem' Hin'].
    f_equal. apply Hties; try assumption.
    + apply (Permutation_in _ (Permutation_sym Hperm)). exact Hmem'.
    + apply (nearestRoot_least _ _ _ Eb); [apply (Permutation_in _ Hperm); exact Hmem|exact Hin].
    + apply (nearestRoot_least _ _ _ Ea);
        [apply (Permutation_in _ (Permutation_sym Hperm)); exact Hmem'|exact Hin'].
  - destruct (nearestRoot_inside _ _ _ Ea) as [Hmem Hin].
    rewrite (nearestRoot_none _ _ Eb h (Permutation_in _ Hperm Hmem)) in Hin. discriminate.
  - destruct (nearestRoot_inside _ _ _ Eb) as [Hmem Hin].
    rewrite (nearestRoot_none _ _ Ea h' (Permutation_in _ (Permutation_sym Hperm) Hmem)) in Hin.
    discriminate.
  - reflexivity.
Qed.

Lemma returnsNearestRoot_hitsInside o (roots : Ray -> list (HitRecord MaterialPtr)) :
  returnsNearestRoot o roots -> hitsInside o.
Proof.
  intros Hc i_ray rg o_record w. rewrite Hc. cbn [fst snd].
  destruct (nearestRoot (roots i_ray) rg) as [h|] eqn:E; cbn [fst snd]; [|discriminate].
  intros _. apply (nearestRoot_inside _ _ _ E).
Qed.

Lemma scanFrom_nearestRoot (i_ray : Ray)
      (roots : SceneObject World MaterialPtr -> Ray -> list (HitRecord MaterialPtr)) objs :
  (forall o, In o objs -> returnsNearestRoot o (roots o)) ->
  forall s w,
    scanFrom i_ray objs (s, w) =
    (settle s (nearestRoot (flat_map (fun o => roots o i_ray) objs)
                           (mkFloatRange shadowAcneBound (nearestHitMagnitude s))), w).
Proof.
  induction objs as [|o objs IH]; intros Hc s w; [reflexivity|].
  rewrite scanFrom_cons. cbn [flat_map].
  rewrite nearestRoot_app. cbn [Min].
  unfold scanStep. rewrite (Hc o (or_introl eq_refl)).
  destruct (nearestRoot (roots o i_ray) _) as [h|].
  - rewrite IH by (intros o' Ho'; apply Hc; right; exact Ho').
    cbn [nearestHitMagnitude].
    destruct (nearestRoot _ (mkFloatRange shadowAcneBound (m_magnitude h))); reflexivity.
  - destruct s as [r hit near]. cbn [record objectHit nearestHitMagnitude].
    rewrite IH by (intros o' Ho'; apply Hc; right; exact Ho'). reflexivity.
Qed.

End ScanFacts.

(* ================================================================== *)
(** * Runs with observed calls *)

Lemma app_inj_length {A} (a a' b b' : list A) :
  a ++ b = a' ++ b' -> List.length b = List.length b' -> a = a' /\ b = b'.
Proof.
  revert a'. induction a as [|x a IH]; intros [|x' a'] Heq Hlen; cbn [app] in *.
  - split; [reflexivity|exact Heq].
  - exfalso. rewrite Heq in Hlen. cbn [List.length] in Hlen. rewrite length_app in Hlen. lia.
  - exfalso. rewrite <- Heq in Hlen. cbn [List.length] in Hlen. rewrite length_app in Hlen. lia.
  - injection Heq as -> Heq. destruct (IH a' Heq Hlen) as [-> ->]. split; reflexivity.
Qed.

Section LoggingFacts.

Context {World MaterialPtr : Type}.
Variable env : Collaborators World MaterialPtr.

Implicit Types (o : SceneObject World MaterialPtr) (objs : SceneObjectPtrs World MaterialPtr).
Implicit Types (s : ScanState MaterialPtr) (w : World) (log : list (Event MaterialPtr)).

Lemma scanStep_logged (i_ray : Ray) o s w log :
  scanStep i_ray (s, (w, log)) (loggedObject o) =
  (fst (scanStep i_ray (s, w) o),
   (snd (scanStep i_ray (s, w) o),
    EvHit (mkFloatRange shadowAcneBound (nearestHitMagnitude s))
          (fst (Hit o i_ray (mkFloatRange shadowAcneBound (nearestHitMagnitude s))
                    (record s) w)) :: log)).
Proof.
  unfold scanStep. cbn [loggedObject Hit fst snd].
  destruct (Hit o i_ray _ (record s) w) as [[hit r] w'].
  destruct hit; reflexivity.
Qed.

Lemma scanFrom_logged (i_ray : Ray) objs :
  forall s w log,
    scanFrom i_ray (map loggedObject objs) (s, (w, log)) =
    (fst (scanFrom i_ray objs (s, w)),
     (snd (scanFrom i_ray objs (s, w)), rev (scanEvents i_ray objs (s, w)) ++ log)).
Proof.
  induction objs as [|o objs IH]; intros s w log; [reflexivity|].
  cbn [map scanEvents rev]. rewrite !scanFrom_cons, scanStep_logged.
  rewrite IH, <- surjective_pairing, <- app_assoc. reflexivity.
Qed.

Lemma scan_logged (i_ray : Ray) objs w log :
  scan (loggedEnv env) i_ray (map loggedObject objs) (w, log) =
  (fst (scan env i_ray objs w),
   (snd (scan env i_ray objs w), rev (scanEvents i_ray objs (scanStart env, w)) ++ log)).
Proof. apply scanFrom_logged. Qed.

Lemma scanCalls_events (i_ray : Ray) objs w :
  scanCalls env i_ray objs w = scanEvents i_ray objs (scanStart env, w).
Proof. unfold scanCalls. rewrite scan_logged. cbn [snd]. rewrite app_nil_r. apply rev_involutive. Qed.

(** The log a run starts with is only extended. *)
Lemma run_logged_shift (fuel : nat) objs :
  forall (i_ray : Ray) (n : Z) w log,
    ComputeRayColor (loggedEnv env) fuel i_ray n (map loggedObject objs) (w, log) =
    match ComputeRayColor (loggedEnv env) fuel i_ray n (map loggedObject objs) (w, []) with
    | Some (c, (w', events)) => Some (c, (w', events ++ log))
    | None => None
    end.
Proof.
  induction fuel as [|fuel IH]; intros i_ray n w log; [reflexivity|].
  rewrite !ComputeRayColor_step.
  destruct (n =? 0); [reflexivity|].
  rewrite !scan_logged. rewrite app_nil_r.
  destruct (objectHit (fst (scan env i_ray objs w))); [|reflexivity].
  cbn [loggedEnv material_at loggedMaterial Scatter fst snd].
  destruct (Scatter _ i_ray _ _) as [[[scattered att] sray] w2].
  destruct scattered; [|reflexivity].
  rewrite IH.
  rewrite (IH sray (Int.sub n 1) w2 (_ :: _)).
  destruct (ComputeRayColor (loggedEnv env) fuel sray (Int.sub n 1) (map loggedObject objs)
                            (w2, [])) as [[d [w3 events]]|]; [|reflexivity].
  rewrite <- app_assoc. reflexivity.
Qed.

(** Observing the calls does not change the run. *)
Lemma run_logged_erase (fuel : nat) objs :
  forall (i_ray : Ray) (n : Z) w,
    ComputeRayColor env fuel i_ray n objs w =
    match ComputeRayColor (loggedEnv env) fuel i_ray n (map loggedObject objs) (w, []) with
    | Some (c, (w', _)) => Some (c, w')
    | None => None
    end.
Proof.
  induction fuel as [|fuel IH]; intros i_ray n w; [reflexivity|].
  rewrite !ComputeRayColor_step.
  destruct (n =? 0); [reflexivity|].
  rewrite scan_logged. rewrite (surjective_pairing (scan env i_ray objs w)) at 1.
  destruct (objectHit (fst (scan env i_ray objs w))); [|reflexivity].
  cbn [loggedEnv material_at loggedMaterial Scatter fst snd].
  destruct (Scatter _ i_ray _ _) as [[[scattered att] sray] w2].
  destruct scattered; [|reflexivity].
  rewrite IH, (run_logged_shift fuel objs sray (Int.sub n 1) w2 (_ :: _)).
  destruct (ComputeRayColor (loggedEnv env) fuel sray (Int.sub n 1) (map loggedObject objs)
                            (w2, [])) as [[d [w3 events]]|]; reflexivity.
Qed.

End LoggingFacts.

(* ================================================================== *)
(** * The colour is a function of the answers *)

Section Determinism.

Context {World MaterialPtr : Type}.
Variable env : Collaborators World MaterialPtr.

Implicit Types (objs : SceneObjectPtrs World MaterialPtr) (w : World).

Lemma hitAnswers_answerOf (calls : list (Event MaterialPtr)) :
  hitAnswers calls = hitsOfAnswers (map answerOf calls).
Proof.
  unfold hitAnswers, hitsOfAnswers.
  induction calls as [|[rg a|a] calls IH]; [reflexivity| |];
    cbn [map flat_map answerOf]; rewrite IH; reflexivity.
Qed.

Lemma run_logged_shape (fuel : nat) (i_ray : Ray) (n : Z) objs w c w' log :
  n <> 0 ->
  ComputeRayColor (loggedEnv env) (S fuel) i_ray n (map loggedObject objs) (w, []) =
    Some (c, (w', log)) ->
  exists later,
    log = later ++ rev (scanEvents i_ray objs (scanStart env, w)) /\
    Shape env fuel i_ray n objs w c later.
Proof.
  intros Hn. apply Z.eqb_neq in Hn.
  rewrite ComputeRayColor_step, Hn, scan_logged, app_nil_r.
  destruct (objectHit (fst (scan env i_ray objs w))) eqn:Hhit.
  - cbn [loggedEnv material_at loggedMaterial Scatter fst snd].
    destruct (Scatter _ i_ray _ _) as [[[scattered att] sray] w2].
    destruct scattered.
    + rewrite run_logged_shift.
      destruct (ComputeRayColor (loggedEnv env) fuel sray (Int.sub n 1) (map loggedObject objs)
                                (w2, [])) as [[d [w3 events]]|] eqn:E; [|discriminate].
      intros [= <- <- <-].
      exists (events ++ [EvScatter (true, att, sray)]). split.
      * rewrite <- app_assoc. reflexivity.
      * eapply ShapeScattered; [exact Hhit|exact E|reflexivity].
    + intros [= <- <- <-]. exists [EvScatter (false, att, sray)]. split; [reflexivity|].
      apply ShapeAbsorbed; [exact Hhit|reflexivity].
  - intros [= <- <- <-]. exists []. split; [reflexivity|].
    apply ShapeEscaped; [exact Hhit|reflexivity].
Qed.

Lemma run_answers_determine_color (fuel : nat) objs :
  forall (i_ray : Ray) (n : Z) w1 w2 c1 c2 w1' w2' log1 log2,
    ComputeRayColor (loggedEnv env) fuel i_ray n (map loggedObject objs) (w1, []) =
      Some (c1, (w1', log1)) ->
    ComputeRayColor (loggedEnv env) fuel i_ray n (map loggedObject objs) (w2, []) =
      Some (c2, (w2', log2)) ->
    map answerOf log1 = map answerOf log2 ->
    c1 = c2.
Proof.
  induction fuel as [|fuel IH]; intros i_ray n w1 w2 c1 c2 w1' w2' log1 log2 H1 H2 Hlog;
    [discriminate|].
  destruct (Z.eq_dec n 0) as [->|Hn].
  { rewrite ComputeRayColor_step in H1, H2. cbn in H1, H2. congruence. }
  destruct (run_logged_shape _ _ _ _ _ _ _ _ Hn H1) as (later1 & -> & S1).
  destruct (run_logged_shape _ _ _ _ _ _ _ _ Hn H2) as (later2 & -> & S2).
  rewrite !map_app in Hlog.
  apply app_inj_length in Hlog;
    [|rewrite !length_map, !length_rev, !scanEvents_length; reflexivity].
  destruct Hlog as [Hlater Hscan].
  assert (Hstate : fst (scan env i_ray objs w1) = fst (scan env i_ray objs w2)).
  { unfold scan. rewrite !scanFrom_replay, !hitAnswers_answerOf. cbn [fst].
    rewrite !map_rev in Hscan. apply (f_equal (@rev _)) in Hscan.
    rewrite !rev_involutive in Hscan. rewrite Hscan. reflexivity. }
  destruct S1 as [Hhit1 ->|att1 sray1 Hhit1 ->|att1 sray1 v1 d1 u1 ev1 Hhit1 R1 ->];
  destruct S2 as [Hhit2 ->|att2 sray2 Hhit2 ->|att2 sray2 v2 d2 u2 ev2 Hhit2 R2 ->];
    try reflexivity; try (rewrite Hstate in Hhit1; congruence).
  - exfalso. rewrite map_app in Hlater. cbn [map answerOf] in Hlater.
    apply (app_inj_tail []) in Hlater. destruct Hlater as [_ Heq]. discriminate.
  - exfalso. rewrite map_app in Hlater. cbn [map answerOf] in Hlater.
    symmetry in Hlater. apply (app_inj_tail []) in Hlater. destruct Hlater as [_ Heq].
    discriminate.
  - rewrite !map_app in Hlater. cbn [map answerOf] in Hlater.
    apply app_inj_tail in Hlater. destruct Hlater as [Hev [= -> ->]].
    rewrite (IH _ _ _ _ _ _ _ _ _ _ R1 R2 Hev). reflexivity.
Qed.

Lemma run_logged_ScansOf (fuel : nat) objs :
  forall (i_ray : Ray) (n : Z) w c w' log,
    ComputeRayColor (loggedEnv env) fuel i_ray n (map loggedObject objs) (w, []) =
      Some (c, (w', log)) ->
    ScansOf env objs (rev log).
Proof.
  induction fuel as [|fuel IH]; intros i_ray n w c w' log H; [discriminate|].
  destruct (Z.eq_dec n 0) as [->|Hn].
  { rewrite ComputeRayColor_step in H. cbn in H. injection H as <- <- <-. constructor. }
  destruct (run_logged_shape _ _ _ _ _ _ _ _ Hn H) as (later & -> & S).
  rewrite rev_app_distr, rev_involutive.
  destruct S as [_ _|att sray _ _|att sray v d u events _ R _].
  - cbn [rev app]. rewrite app_nil_r. constructor.
  - cbn [rev app]. apply ScansScattered. constructor.
  - rewrite rev_app_distr. cbn [rev app]. apply ScansScattered. exact (IH _ _ _ _ _ _ R).
Qed.

(** C10. Two invocations with the same ray, the same budget and the same
    scene, in any two states of the world, that draw the same sequence of
    values from the [Hit] and [Scatter] calls, return the same colour.  The
    scene is handed over as a value, as the [const] reference is, and the
    result carries no scene; every activation of the run, the nested ones
    included, scans the very collection the first one was given. *)
Theorem same_answers_same_color (fuel : nat) (i_ray : Ray) (n : Z) objs
        (w1 w2 w1' w2' : World) (c1 c2 : Vec3f) :
  ComputeRayColor env fuel i_ray n objs w1 = Some (c1, w1') ->
  ComputeRayColor env fuel i_ray n objs w2 = Some (c2, w2') ->
  option_map (map answerOf) (runCalls env fuel i_ray n objs w1) =
  option_map (map answerOf) (runCalls env fuel i_ray n objs w2) ->
  c1 = c2 /\
  exists calls, runCalls env fuel i_ray n objs w1 = Some calls /\ ScansOf env objs calls.
Proof.
  unfold runCalls. rewrite !(run_logged_erase env fuel objs).
  destruct (ComputeRayColor (loggedEnv env) fuel i_ray n (map loggedObject objs) (w1, []))
    as [[d1 [u1 log1]]|] eqn:E1; [|discriminate].
  destruct (ComputeRayColor (loggedEnv env) fuel i_ray n (map loggedObject objs) (w2, []))
    as [[d2 [u2 log2]]|] eqn:E2; [|discriminate].
  intros [= <- <-] [= <- <-] Hlog. cbn [option_map] in Hlog. injection Hlog as Hlog.
  rewrite !map_rev in Hlog. apply (f_equal (@rev _)) in Hlog.
  rewrite !rev_involutive in Hlog. split.
  - exact (run_answers_determine_color fuel objs _ _ _ _ _ _ _ _ _ _ E1 E2 Hlog).
  - exists (rev log1). split; [reflexivity|].
    exact (run_logged_ScansOf fuel objs _ _ _ _ _ _ E1).
Qed.

End Determinism.

(* ================================================================== *)
(** * Nearest hit wins *)

Section NearestHit.

Context {World MaterialPtr : Type}.
Variable env : Collaborators World MaterialPtr.
Variable roots : SceneObject World MaterialPtr -> Ray -> list (HitRecord MaterialPtr).

Implicit Types (objs : SceneObjectPtrs World MaterialPtr) (w : World).

Lemma scan_nearest (i_ray : Ray) objs w :
  (forall o, In o objs -> hitsInside o) ->
  nearestHitMagnitude (fst (scan env i_ray objs w)) =
  smallestReported F32.max_value (hitAnswers (scanCalls env i_ray objs w)).
Proof.
  intros Hin. rewrite scanCalls_events. unfold scan.
  rewrite (scanFrom_nearest i_ray objs _ Hin). reflexivity.
Qed.

Lemma scan_Permutation (i_ray : Ray) objs objs' w :
  (forall o, In o objs -> returnsNearestRoot o (roots o)) ->
  noTies roots objs ->
  Permutation objs objs' ->
  scan env i_ray objs' w = scan env i_ray objs w.
Proof.
  intros Hc Hties Hperm. unfold scan.
  rewrite (scanFrom_nearestRoot i_ray roots objs Hc).
  rewrite (scanFrom_nearestRoot i_ray roots objs')
    by (intros o Ho; apply Hc; apply (Permutation_in _ (Permutation_sym Hperm)); exact Ho).
  f_equal. f_equal. symmetry. apply nearestRoot_Permutation.
  - apply Permutation_flat_map. exact Hperm.
  - intros h h' Hh Hh' Hlt Hgt Hin Hin'. exact (Hties i_ray h h' Hh Hh' Hlt Hgt Hin Hin').
Qed.

Lemma ComputeRayColor_Permutation objs objs' :
  (forall o, In o objs -> returnsNearestRoot o (roots o)) ->
  noTies roots objs ->
  Permutation objs objs' ->
  forall fuel (i_ray : Ray) (n : Z) w,
    ComputeRayColor env fuel i_ray n objs' w = ComputeRayColor env fuel i_ray n objs w.
Proof.
  intros Hc Hties Hperm. induction fuel as [|fuel IH]; intros i_ray n w; [reflexivity|].
  rewrite !ComputeRayColor_step, (scan_Permutation i_ray objs objs' w Hc Hties Hperm).
  destruct (n =? 0); [reflexivity|].
  destruct (scan env i_ray objs w) as [s w1].
  destruct (objectHit s); [|reflexivity].
  destruct (Scatter _ i_ray (record s) w1) as [[[scattered att] sray] w2].
  destruct scattered; [|reflexivity].
  rewrite IH. reflexivity.
Qed.

(** C4, amended.  Every object answers [Hit] with its nearest in-range
    root.  Then, for every prefix of the scene list, the tracked nearest-hit
    magnitude after the prefix is the smallest hit parameter reported so far
    ([std::numeric_limits< float >::max()] when there is none), and the
    next object is asked with the interval from [0.001f] to that magnitude.
    When moreover no two different intersection records share their hit
    parameter, the colour is the same for every permutation of the scene
    list. *)
Theorem nearest_hit_wins objs :
  (forall o, In o objs -> returnsNearestRoot o (roots o)) ->
  (forall (i_ray : Ray) w pre o post,
      objs = pre ++ o :: post ->
      nearestHitMagnitude (fst (scan env i_ray pre w)) =
        smallestReported F32.max_value (hitAnswers (scanCalls env i_ray pre w)) /\
      exists answer later,
        scanCalls env i_ray objs w =
        scanCalls env i_ray pre w ++
        EvHit (mkFloatRange (F32.div (F32.of_int 1) (F32.of_int 1000))
                            (smallestReported F32.max_value
                               (hitAnswers (scanCalls env i_ray pre w))))
              answer :: later) /\
  (forall (i_ray : Ray) w,
      nearestHitMagnitude (fst (scan env i_ray objs w)) =
      smallestReported F32.max_value (hitAnswers (scanCalls env i_ray objs w))) /\
  (noTies roots objs ->
   forall objs', Permutation objs objs' ->
   forall fuel (i_ray : Ray) (n : Z) w,
     ComputeRayColor env fuel i_ray n objs' w = ComputeRayColor env fuel i_ray n objs w).
Proof.
  intros Hc.
  assert (Hin : forall o, In o objs -> hitsInside o)
    by (intros o Ho; exact (returnsNearestRoot_hitsInside o (roots o) (Hc o Ho))).
  split; [|split].
  - intros i_ray w pre o post Heq.
    assert (Hpre : forall o', In o' pre -> hitsInside o')
      by (intros o' Ho'; apply Hin; rewrite Heq; apply in_or_app; left; exact Ho').
    rewrite Heq.
    split; [exact (scan_nearest i_ray pre w Hpre)|].
    rewrite <- (scan_nearest i_ray pre w Hpre).
    rewrite !scanCalls_events, scanEvents_app. cbn [scanEvents].
    eexists. eexists. reflexivity.
  - intros i_ray w. exact (scan_nearest i_ray objs w Hin).
  - intros Hties objs' Hperm. exact (ComputeRayColor_Permutation objs objs' Hc Hties Hperm).
Qed.

End NearestHit.

(* ================================================================== *)
(** * The iteration of [gm::Vec2iRange] *)

Lemma Int_add_1 (n : Z) :
  Int.min_value <= n < Int.max_value -> Int.add n 1 = n + 1.
Proof.
  unfold Int.add, Int.wrap, Int.min_value, Int.max_value. intros H.
  rewrite Z.mod_small; lia.
Qed.

Section Vec2iRangeFacts.

Import Vec2iRange.

Variable r : t.
Hypothesis min0_int : Int.in_range (i0 (m_min r)).
Hypothesis min1_int : Int.in_range (i1 (m_min r)).
Hypothesis max0_int : Int.in_range (i0 (m_max r)).
Hypothesis max1_int : Int.in_range (i1 (m_max r)).
Hypothesis wide : i0 (m_min r) < i0 (m_max r).
Hypothesis high : i1 (m_min r) < i1 (m_max r).

Lemma point_bounds (k : Z) :
  0 <= k < width r * height r ->
  i0 (m_min r) <= i0 (point r k) < i0 (m_max r) /\
  i1 (m_min r) <= i1 (point r k) < i1 (m_max r).
Proof.
  unfold point, width, height. cbn [i0 i1]. intros Hk.
  set (W := i0 (m_max r) - i0 (m_min r)) in *.
  set (H := i1 (m_max r) - i1 (m_min r)) in *.
  assert (HW : 0 < W) by (unfold W; lia).
  pose proof (Z.mod_pos_bound k W HW).
  pose proof (Z.div_pos k W ltac:(lia) HW).
  assert (k / W < H) by (apply Z.div_lt_upper_bound; lia).
  unfold W, H in *. lia.
Qed.

Lemma incr_at_point (k : Z) :
  0 <= k -> k + 1 < width r * height r ->
  incr (at_point r k) = at_point r (k + 1).
Proof.
  intros Hk0 Hk1.
  destruct (point_bounds k ltac:(lia)) as [Hx Hy].
  unfold incr, at_point. cbn [m_currentValue it_min it_max].
  unfold Int.in_range, Int.min_value, Int.max_value in *.
  rewrite !Int_add_1 by (unfold Int.min_value, Int.max_value; lia).
  revert Hx Hy. unfold point, width, height in *. cbn [i0 i1].
  set (W := i0 (m_max r) - i0 (m_min r)) in *.
  set (H := i1 (m_max r) - i1 (m_min r)) in *.
  assert (HW : 0 < W) by (unfold W; lia).
  pose proof (Z.mod_pos_bound k W HW) as Hm.
  pose proof (Z.div_mod k W ltac:(lia)) as Hdm.
  intros Hx Hy.
  destruct (Z.ltb_spec (i0 (m_min r) + k mod W + 1) (i0 (m_max r))) as [Hlt|Hge].
  - assert (Hq : (k + 1) / W = k / W)
      by (symmetry; apply Z.div_unique with (r := k mod W + 1); lia).
    assert (Hr : (k + 1) mod W = k mod W + 1)
      by (symmetry; apply Z.mod_unique with (q := k / W); lia).
    rewrite Hq, Hr. do 2 f_equal. lia.
  - assert (Hlast : k mod W = W - 1) by (unfold W in *; lia).
    assert (Hq : (k + 1) / W = k / W + 1)
      by (symmetry; apply Z.div_unique with (r := 0); lia).
    assert (Hr : (k + 1) mod W = 0)
      by (symmetry; apply Z.mod_unique with (q := k / W + 1); lia).
    assert (Hrow : k / W + 1 < H) by nia.
    destruct (Z.ltb_spec (i1 (m_min r) + k / W + 1) (i1 (m_max r))) as [_|Hge'];
      [|unfold H in Hrow; lia].
    rewrite Hq, Hr. do 2 f_equal; lia.
Qed.

Lemma incr_at_last :
  incr (at_point r (width r * height r - 1)) = end_ r.
Proof.
  assert (Hpos : 0 < width r * height r) by (unfold width, height; nia).
  destruct (point_bounds (width r * height r - 1) ltac:(lia)) as [Hx Hy].
  unfold incr, at_point, end_. cbn [m_currentValue it_min it_max].
  unfold Int.in_range, Int.min_value, Int.max_value in *.
  rewrite !Int_add_1 by (unfold Int.min_value, Int.max_value; lia).
  revert Hx Hy Hpos. unfold point, width, height. cbn [i0 i1].
  set (W := i0 (m_max r) - i0 (m_min r)) in *.
  set (H := i1 (m_max r) - i1 (m_min r)) in *.
  intros Hx Hy Hpos.
  assert (HW : 0 < W) by (unfold W; lia).
  assert (Hq : (W * H - 1) / W = H - 1)
    by (symmetry; apply Z.div_unique with (r := W - 1); lia).
  assert (Hr : (W * H - 1) mod W = W - 1)
    by (symmetry; apply Z.mod_unique with (q := H - 1); lia).
  rewrite Hq, Hr.
  destruct (Z.ltb_spec (i0 (m_min r) + (W - 1) + 1) (i0 (m_max r))); [unfold W in *; lia|].
  destruct (Z.ltb_spec (i1 (m_min r) + (H - 1) + 1) (i1 (m_max r))); [unfold H in *; lia|].
  reflexivity.
Qed.

Lemma begin_at_point : begin r = at_point r 0.
Proof.
  unfold begin, at_point, point.
  rewrite Z.mod_0_l, Z.div_0_l by (unfold width; lia).
  destruct (m_min r) as [x y]. cbn [i0 i1]. rewrite !Z.add_0_r. reflexivity.
Qed.

Lemma at_point_not_end (k : Z) :
  0 <= k < width r * height r -> neq (at_point r k) (end_ r) = true.
Proof.
  intros Hk. destruct (point_bounds k Hk) as [Hx _].
  unfold neq, at_point, end_, Vec2i_neq. cbn [m_currentValue].
  destruct (Z.eqb_spec (i0 (point r k)) (i0 (m_max r))); [lia|reflexivity].
Qed.

Lemma advance_incr (k : nat) (it : iterator) :
  advance (S k) it = incr (advance k it).
Proof. revert it. induction k as [|k IH]; intros it; [reflexivity|]. cbn [advance] in *. apply IH. Qed.

Lemma advance_at_point (k : nat) :
  Z.of_nat k < width r * height r ->
  advance k (begin r) = at_point r (Z.of_nat k).
Proof.
  induction k as [|k IH]; intros Hk.
  - apply begin_at_point.
  - rewrite advance_incr, IH by lia. rewrite incr_at_point by lia.
    f_equal. lia.
Qed.

Lemma visited_end (fuel : nat) : visited (S fuel) (end_ r) (end_ r) = Some [].
Proof. cbn [visited]. unfold neq, Vec2i_neq. rewrite !Z.eqb_refl. reflexivity. Qed.

Lemma visited_from (count : nat) :
  forall (k : nat) (fuel : nat),
    Z.of_nat k + Z.of_nat (S count) = width r * height r ->
    (S count < fuel)%nat ->
    visited fuel (at_point r (Z.of_nat k)) (end_ r) =
    Some (map (fun j => point r (Z.of_nat j)) (seq k (S count))).
Proof.
  induction count as [|count IH]; intros k fuel Hsum Hfuel;
    (destruct fuel as [|fuel]; [lia|]); cbn [visited];
    rewrite at_point_not_end by lia.
  - replace (Z.of_nat k) with (width r * height r - 1) at 1 by lia.
    rewrite incr_at_last.
    destruct fuel as [|fuel]; [lia|]. rewrite visited_end. reflexivity.
  - rewrite incr_at_point by lia.
    replace (Z.of_nat k + 1) with (Z.of_nat (S k)) by lia.
    rewrite (IH (S k) fuel) by lia. reflexivity.
Qed.

Lemma point_injective (j k : Z) :
  0 <= j < width r * height r -> 0 <= k < width r * height r ->
  point r j = point r k -> j = k.
Proof.
  unfold point. intros Hj Hk Heq. injection Heq as Hx Hy.
  assert (HW : 0 < width r) by (unfold width; lia).
  rewrite (Z.div_mod j (width r)), (Z.div_mod k (width r)) by lia.
  replace (j / width r) with (k / width r) by lia.
  replace (j mod width r) with (k mod width r) by lia.
  reflexivity.
Qed.

(** C9. For a range whose minimum is below its maximum in both components,
    the range-based [for] visits the points [(x, y)] with
    [min.x <= x < max.x] and [min.y <= y < max.y], all of them and each
    once, in row-major order with [x] varying fastest (the [k]-th point
    visited is [(min.x + k mod width, min.y + k / width)]); the iterator
    differs from [end()] before each of these visits and equals [end()]
    after exactly [(max.x - min.x) * (max.y - min.y)] increments. *)
Theorem range_iteration_is_row_major :
  (forall fuel, (Z.to_nat (width r * height r) < fuel)%nat ->
                elements fuel r = Some (rowMajor r)) /\
  (forall k, (k < Z.to_nat (width r * height r))%nat ->
             nth_error (rowMajor r) k =
             Some (mkVec2i (i0 (m_min r) + Z.of_nat k mod (i0 (m_max r) - i0 (m_min r)))
                           (i1 (m_min r) + Z.of_nat k / (i0 (m_max r) - i0 (m_min r)))) /\
             neq (advance k (begin r)) (end_ r) = true) /\
  (forall x y, In (mkVec2i x y) (rowMajor r) <->
               i0 (m_min r) <= x < i0 (m_max r) /\ i1 (m_min r) <= y < i1 (m_max r)) /\
  NoDup (rowMajor r) /\
  List.length (rowMajor r) = Z.to_nat ((i0 (m_max r) - i0 (m_min r)) * (i1 (m_max r) - i1 (m_min r))) /\
  advance (Z.to_nat ((i0 (m_max r) - i0 (m_min r)) * (i1 (m_max r) - i1 (m_min r)))) (begin r) =
    end_ r.
Proof.
  assert (HW : 0 < width r) by (unfold width; lia).
  assert (HH : 0 < height r) by (unfold height; lia).
  assert (Hpos : 0 < width r * height r) by nia.
  change ((i0 (m_max r) - i0 (m_min r)) * (i1 (m_max r) - i1 (m_min r)))
    with (width r * height r).
  split; [|split; [|split; [|split; [|split]]]].
  - intros fuel Hfuel. unfold elements, rowMajor. rewrite begin_at_point.
    replace (Z.to_nat (width r * height r)) with (S (Z.to_nat (width r * height r - 1)))
      in * by lia.
    apply (visited_from (Z.to_nat (width r * height r - 1)) 0 fuel); lia.
  - intros k Hk. split.
    + unfold rowMajor. rewrite nth_error_map, nth_error_seq.
      destruct (Nat.ltb_spec k (Z.to_nat (width r * height r))); [|lia].
      reflexivity.
    + rewrite advance_at_point by lia. apply at_point_not_end. lia.
  - intros x y. unfold rowMajor. rewrite in_map_iff. split.
    + intros (k & Hp & Hin). apply in_seq in Hin.
      destruct (point_bounds (Z.of_nat k) ltac:(lia)) as [Hx Hy].
      rewrite Hp in Hx, Hy. cbn [i0 i1] in Hx, Hy. lia.
    + intros [Hx Hy].
      exists (Z.to_nat ((y - i1 (m_min r)) * width r + (x - i0 (m_min r)))).
      assert (Hk : 0 <= (y - i1 (m_min r)) * width r + (x - i0 (m_min r)) < width r * height r)
        by (unfold width, height in *; nia).
      split; [|apply in_seq; lia].
      rewrite Z2Nat.id by lia. unfold point. f_equal.
      * assert (((y - i1 (m_min r)) * width r + (x - i0 (m_min r))) mod width r =
                x - i0 (m_min r)); [|lia].
        symmetry. apply Z.mod_unique with (q := y - i1 (m_min r)); unfold width in *; lia.
      * assert (((y - i1 (m_min r)) * width r + (x - i0 (m_min r))) / width r =
                y - i1 (m_min r)); [|lia].
        symmetry. apply Z.div_unique with (r := x - i0 (m_min r)); unfold width in *; lia.
  - unfold rowMajor. apply Finite.Injective_map_NoDup_in; [|apply seq_NoDup].
    intros j k Hj Hk Heq. apply in_seq in Hj, Hk.
    apply Nat2Z.inj. apply point_injective; [lia|lia|exact Heq].
  - unfold rowMajor. rewrite length_map, length_seq. reflexivity.
  - replace (Z.to_nat (width r * height r)) with (S (Z.to_nat (width r * height r - 1))) by lia.
    rewrite advance_incr, advance_at_point by lia.
    rewrite Z2Nat.id by lia. apply incr_at_last.
Qed.

End Vec2iRangeFacts.

(* ================================================================== *)
(** * The sampling loop and the exit code *)

Section ProgramFacts.

Context {World MaterialPtr : Type}.
Variable env : Collaborators World MaterialPtr.
Variable pf : Platform World MaterialPtr.

Section RenderFacts.

Variable fuel : nat.
Variables imageWidth imageHeight samplesPerPixel rayBounceLimit : Z.
Variable camera : Camera.
Variable sceneObjectPtrs : SceneObjectPtrs World MaterialPtr.


(** With a bounce limit that is not negative and enough fuel for it, the
    loop runs to its end. *)
Lemma sampleLoop_total (count : nat) (pixelCoord : Vec2i) :
  0 <= rayBounceLimit <= Int.max_value ->
  (Z.to_nat rayBounceLimit < fuel)%nat ->
  forall (pixelColor : Vec3f) (w : World),
  exists sum w',
    sampleLoop env pf fuel imageWidth imageHeight rayBounceLimit camera sceneObjectPtrs
               count pixelCoord pixelColor w = Some (sum, w').
Proof.
  intros Hlimit Hfuel.
  induction count as [|count IH]; intros pixelColor w; cbn [sampleLoop]; [eauto|].
  destruct (RandomNumber pf c_normalizedRange w) as [jitterX w1].
  destruct (RandomNumber pf c_normalizedRange w1) as [jitterY w2].
  match goal with
  | |- context [ComputeRayColor env fuel ?ray rayBounceLimit sceneObjectPtrs w2] =>
    destruct (ComputeRayColor_total env ray rayBounceLimit sceneObjectPtrs w2 fuel
                                    Hlimit Hfuel) as (color & w3 & ->)
  end.
  apply IH.
Qed.


End RenderFacts.


End ProgramFacts.

(* ================================================================== *)
(** * The iteration of ranges of any shape *)

Section AnyRangeFacts.

Import Vec2iRange AnyRange.

Variable r : t.
Hypothesis ints : noOverflow r.
Hypothesis distinct : m_min r <> m_max r.

Lemma distinct_components : i0 (m_min r) <> i0 (m_max r) \/ i1 (m_min r) <> i1 (m_max r).
Proof.
  destruct (Z.eq_dec (i0 (m_min r)) (i0 (m_max r))) as [Hx|Hx]; [|left; exact Hx].
  destruct (Z.eq_dec (i1 (m_min r)) (i1 (m_max r))) as [Hy|Hy]; [|right; exact Hy].
  exfalso. apply distinct. destruct (m_min r), (m_max r). cbn in *. congruence.
Qed.

Lemma cell_split (k : Z) :
  0 <= k < columns r * rows r ->
  0 <= k mod columns r < columns r /\ 0 <= k / columns r < rows r /\
  k = columns r * (k / columns r) + k mod columns r.
Proof.
  intros Hk. assert (HW : 0 < columns r) by (unfold columns; lia).
  pose proof (Z.mod_pos_bound k (columns r) HW).
  pose proof (Z.div_pos k (columns r) ltac:(lia) HW).
  pose proof (Z.div_mod k (columns r) ltac:(lia)).
  assert (k / columns r < rows r) by (apply Z.div_lt_upper_bound; lia).
  lia.
Qed.

Lemma incr_at_cell (k : Z) :
  0 <= k -> k + 1 < columns r * rows r ->
  incr (at_cell r k) = at_cell r (k + 1).
Proof.
  intros Hk0 Hk1. destruct ints as (Ha & Hb & Hc & Hd & He & Hf).
  destruct (cell_split k ltac:(lia)) as (Hm & Hq & Hdm).
  assert (HW : 0 < columns r) by (unfold columns; lia).
  unfold incr, at_cell, cell. cbn [m_currentValue it_min it_max i0 i1].
  unfold Int.in_range, Int.min_value, Int.max_value in *.
  assert (Hcols : columns r = Z.max 1 (i0 (m_max r) - i0 (m_min r))) by reflexivity.
  assert (Hrows : rows r = Z.max 1 (i1 (m_max r) - i1 (m_min r))) by reflexivity.
  rewrite !Int_add_1 by (unfold Int.min_value, Int.max_value; lia).
  destruct (Z.ltb_spec (i0 (m_min r) + k mod columns r + 1) (i0 (m_max r))) as [Hlt|Hge].
  - assert (Hq' : (k + 1) / columns r = k / columns r)
      by (symmetry; apply Z.div_unique with (r := k mod columns r + 1); lia).
    assert (Hr' : (k + 1) mod columns r = k mod columns r + 1)
      by (symmetry; apply Z.mod_unique with (q := k / columns r); lia).
    rewrite Hq', Hr'. do 2 f_equal. lia.
  - assert (Hlast : k mod columns r = columns r - 1) by lia.
    assert (Hq' : (k + 1) / columns r = k / columns r + 1)
      by (symmetry; apply Z.div_unique with (r := 0); lia).
    assert (Hr' : (k + 1) mod columns r = 0)
      by (symmetry; apply Z.mod_unique with (q := k / columns r + 1); lia).
    assert (Hrow : k / columns r + 1 < rows r) by nia.
    destruct (Z.ltb_spec (i1 (m_min r) + k / columns r + 1) (i1 (m_max r))) as [_|Hge'];
      [|lia].
    rewrite Hq', Hr'. do 2 f_equal; lia.
Qed.

Lemma incr_at_last_cell :
  incr (at_cell r (columns r * rows r - 1)) = end_ r.
Proof.
  destruct ints as (Ha & Hb & Hc & Hd & He & Hf).
  assert (HW : 0 < columns r) by (unfold columns; lia).
  assert (HH : 0 < rows r) by (unfold rows; lia).
  assert (Hq : (columns r * rows r - 1) / columns r = rows r - 1)
    by (symmetry; apply Z.div_unique with (r := columns r - 1); lia).
  assert (Hr : (columns r * rows r - 1) mod columns r = columns r - 1)
    by (symmetry; apply Z.mod_unique with (q := rows r - 1); lia).
  unfold incr, at_cell, cell, end_. cbn [m_currentValue it_min it_max i0 i1].
  rewrite Hq, Hr.
  unfold Int.in_range, Int.min_value, Int.max_value in *.
  assert (Hcols : columns r = Z.max 1 (i0 (m_max r) - i0 (m_min r))) by reflexivity.
  assert (Hrows : rows r = Z.max 1 (i1 (m_max r) - i1 (m_min r))) by reflexivity.
  rewrite !Int_add_1 by (unfold Int.min_value, Int.max_value; lia).
  destruct (Z.ltb_spec (i0 (m_min r) + (columns r - 1) + 1) (i0 (m_max r))); [lia|].
  destruct (Z.ltb_spec (i1 (m_min r) + (rows r - 1) + 1) (i1 (m_max r))); [lia|].
  reflexivity.
Qed.

Lemma begin_at_cell : begin r = at_cell r 0.
Proof.
  unfold begin, at_cell, cell.
  rewrite Z.mod_0_l, Z.div_0_l by (unfold columns; lia).
  destruct (m_min r) as [x y]. cbn [i0 i1]. rewrite !Z.add_0_r. reflexivity.
Qed.

Lemma at_cell_not_end (k : Z) :
  0 <= k < columns r * rows r -> neq (at_cell r k) (end_ r) = true.
Proof.
  intros Hk. destruct (cell_split k Hk) as (Hm & Hq & _).
  pose proof distinct_components as Hd.
  unfold neq, at_cell, end_, Vec2i_neq, cell. cbn [m_currentValue i0 i1].
  assert (Hcols : columns r = Z.max 1 (i0 (m_max r) - i0 (m_min r))) by reflexivity.
  assert (Hrows : rows r = Z.max 1 (i1 (m_max r) - i1 (m_min r))) by reflexivity.
  destruct (Z.eqb_spec (i0 (m_min r) + k mod columns r) (i0 (m_max r))) as [Hx|]; [|reflexivity].
  destruct (Z.eqb_spec (i1 (m_min r) + k / columns r) (i1 (m_max r))) as [Hy|]; [|reflexivity].
  exfalso. lia.
Qed.

Lemma visited_cells_from (count : nat) :
  forall (k : nat) (fuel : nat),
    Z.of_nat k + Z.of_nat (S count) = columns r * rows r ->
    (S count < fuel)%nat ->
    visited fuel (at_cell r (Z.of_nat k)) (end_ r) =
    Some (map (fun j => cell r (Z.of_nat j)) (seq k (S count))).
Proof.
  induction count as [|count IH]; intros k fuel Hsum Hfuel;
    (destruct fuel as [|fuel]; [lia|]); cbn [visited];
    rewrite at_cell_not_end by lia.
  - replace (Z.of_nat k) with (columns r * rows r - 1) at 1 by lia.
    rewrite incr_at_last_cell.
    destruct fuel as [|fuel]; [lia|]. rewrite visited_end. reflexivity.
  - rewrite incr_at_cell by lia.
    replace (Z.of_nat k + 1) with (Z.of_nat (S k)) by lia.
    rewrite (IH (S k) fuel) by lia. reflexivity.
Qed.

(** The whole iteration. *)
Lemma elements_cells (fuel : nat) :
  (Z.to_nat (columns r * rows r) < fuel)%nat ->
  elements fuel r = Some (cells r).
Proof.
  intros Hfuel. unfold elements, cells. rewrite begin_at_cell.
  assert (Hpos : 0 < columns r * rows r) by (unfold columns, rows; nia).
  replace (Z.to_nat (columns r * rows r)) with (S (Z.to_nat (columns r * rows r - 1)))
    in * by lia.
  apply (visited_cells_from (Z.to_nat (columns r * rows r - 1)) 0 fuel); lia.
Qed.

Lemma advance_at_cell (k : nat) :
  Z.of_nat k < columns r * rows r ->
  advance k (begin r) = at_cell r (Z.of_nat k).
Proof.
  induction k as [|k IH]; intros Hk.
  - apply begin_at_cell.
  - rewrite advance_incr, IH by lia. rewrite incr_at_cell by lia.
    f_equal. lia.
Qed.

End AnyRangeFacts.

(** X1. A range of any shape whose minimum differs from its maximum (no
    [operator++] overflowing): the range-based [for] goes through
    [max(1, width)] columns and [max(1, height)] rows starting at the
    minimum, row by row, and reaches [end()] after exactly that many
    increments.  So a range whose width or height is not positive is gone
    through all the same, over one column or one row. *)
Theorem any_range_iteration (r : Vec2iRange.t) :
  AnyRange.noOverflow r ->
  Vec2iRange.m_min r <> Vec2iRange.m_max r ->
  (forall fuel, (Z.to_nat (AnyRange.columns r * AnyRange.rows r) < fuel)%nat ->
                Vec2iRange.elements fuel r = Some (AnyRange.cells r)) /\
  List.length (AnyRange.cells r) =
    Z.to_nat (Z.max 1 (i0 (Vec2iRange.m_max r) - i0 (Vec2iRange.m_min r)) *
              Z.max 1 (i1 (Vec2iRange.m_max r) - i1 (Vec2iRange.m_min r))) /\
  (forall k, (k < List.length (AnyRange.cells r))%nat ->
             nth_error (AnyRange.cells r) k =
             Some (mkVec2i
                     (i0 (Vec2iRange.m_min r) +
                      Z.of_nat k mod Z.max 1 (i0 (Vec2iRange.m_max r) - i0 (Vec2iRange.m_min r)))
                     (i1 (Vec2iRange.m_min r) +
                      Z.of_nat k / Z.max 1 (i0 (Vec2iRange.m_max r) - i0 (Vec2iRange.m_min r))))) /\
  Vec2iRange.advance (List.length (AnyRange.cells r)) (Vec2iRange.begin r) = Vec2iRange.end_ r.
Proof.
  intros Hints Hdistinct.
  assert (Hlen : List.length (AnyRange.cells r) =
                 Z.to_nat (AnyRange.columns r * AnyRange.rows r))
    by (unfold AnyRange.cells; rewrite length_map, length_seq; reflexivity).
  assert (Hpos : 0 < AnyRange.columns r * AnyRange.rows r)
    by (unfold AnyRange.columns, AnyRange.rows; nia).
  split; [|split; [|split]].
  - intros fuel Hfuel. exact (elements_cells r Hints Hdistinct fuel Hfuel).
  - exact Hlen.
  - intros k Hk. rewrite Hlen in Hk. unfold AnyRange.cells.
    rewrite nth_error_map, nth_error_seq.
    destruct (Nat.ltb_spec k (Z.to_nat (AnyRange.columns r * AnyRange.rows r))); [|lia].
    reflexivity.
  - rewrite Hlen.
    replace (Z.to_nat (AnyRange.columns r * AnyRange.rows r))
      with (S (Z.to_nat (AnyRange.columns r * AnyRange.rows r - 1))) by lia.
    rewrite advance_incr.
    rewrite (advance_at_cell r Hints Hdistinct) by lia.
    rewrite Z2Nat.id by lia. exact (incr_at_last_cell r Hints).
Qed.

(** X2. The loop body is skipped exactly when the minimum of the range
    equals its maximum; for any other range, of whatever shape, the first
    value of the loop is the minimum.  The default-constructed range is
    such a range: its [begin()] differs from its [end()]. *)
Theorem iteration_empty_iff (r : Vec2iRange.t) (fuel : nat) (l : list Vec2i) :
  Vec2iRange.elements fuel r = Some l ->
  (l = [] <-> Vec2iRange.m_min r = Vec2iRange.m_max r) /\
  (Vec2iRange.m_min r <> Vec2iRange.m_max r -> hd_error l = Some (Vec2iRange.m_min r)) /\
  Vec2iRange.neq (Vec2iRange.begin AnyRange.defaultRange)
                 (Vec2iRange.end_ AnyRange.defaultRange) = true.
Proof.
  unfold Vec2iRange.elements. destruct fuel as [|fuel]; [discriminate|].
  cbn [Vec2iRange.visited].
  assert (Hneq : Vec2iRange.neq (Vec2iRange.begin r) (Vec2iRange.end_ r) = false <->
                 Vec2iRange.m_min r = Vec2iRange.m_max r).
  { unfold Vec2iRange.neq, Vec2iRange.Vec2i_neq, Vec2iRange.begin, Vec2iRange.end_.
    cbn [Vec2iRange.m_currentValue].
    destruct (Vec2iRange.m_min r) as [x y], (Vec2iRange.m_max r) as [x' y']. cbn [i0 i1].
    destruct (Z.eqb_spec x x') as [->|Hx], (Z.eqb_spec y y') as [->|Hy]; cbn;
      split; intros H; congruence. }
  destruct (Vec2iRange.neq (Vec2iRange.begin r) (Vec2iRange.end_ r)) eqn:E.
  - destruct (Vec2iRange.visited fuel _ _) as [rest|]; [|discriminate].
    intros [= <-]. split; [|split; [|reflexivity]].
    + split; [discriminate|]. intros Heq. apply Hneq in Heq. discriminate.
    + intros _. reflexivity.
  - intros [= <-]. split; [|split; [|reflexivity]].
    + split; [intros _; apply Hneq; reflexivity|reflexivity].
    + intros Hd. exfalso. apply Hd, Hneq. reflexivity.
Qed.

(* ================================================================== *)
(** * The calls of a run and closed scenes *)

Section RunFacts.

Context {World MaterialPtr : Type}.
Variable env : Collaborators World MaterialPtr.

Implicit Types (objs : SceneObjectPtrs World MaterialPtr) (w : World).
Implicit Types (calls log : list (Event MaterialPtr)).

Lemma hitAnswers_rev_length calls :
  List.length (hitAnswers (rev calls)) = List.length (hitAnswers calls).
Proof.
  apply Permutation_length, Permutation_flat_map, Permutation_sym, Permutation_rev.
Qed.

Lemma scatterAnswers_app calls calls' :
  scatterAnswers (calls ++ calls') = scatterAnswers calls ++ scatterAnswers calls'.
Proof. apply flat_map_app. Qed.

Lemma scatterAnswers_rev_length calls :
  List.length (scatterAnswers (rev calls)) = List.length (scatterAnswers calls).
Proof.
  apply Permutation_length, Permutation_flat_map, Permutation_sym, Permutation_rev.
Qed.

Lemma scanEvents_hits (i_ray : Ray) objs (st : ScanState MaterialPtr * World) :
  List.length (hitAnswers (scanEvents i_ray objs st)) = List.length objs /\
  scatterAnswers (scanEvents i_ray objs st) = [].
Proof.
  revert st. induction objs as [|o objs IH]; intros st; [split; reflexivity|].
  cbn [scanEvents]. destruct (IH (scanStep i_ray st o)) as [Hh Hs].
  unfold hitAnswers, scatterAnswers in *. cbn [flat_map app List.length].
  rewrite Hh, Hs. split; reflexivity.
Qed.

(** The calls of a run that returns, counted on its log. *)
Lemma run_logged_counts (fuel : nat) objs :
  forall (i_ray : Ray) (n : Z) w c w' log,
    0 <= n <= Int.max_value ->
    ComputeRayColor (loggedEnv env) fuel i_ray n (map loggedObject objs) (w, []) =
      Some (c, (w', log)) ->
    exists scans : nat,
      Z.of_nat scans <= n /\
      List.length (hitAnswers log) = (scans * List.length objs)%nat /\
      (List.length (scatterAnswers log) <= scans <= S (List.length (scatterAnswers log)))%nat /\
      (n = 0 -> log = []).
Proof.
  induction fuel as [|fuel IH]; intros i_ray n w c w' log Hn H; [discriminate|].
  destruct (Z.eq_dec n 0) as [->|Hn0].
  { rewrite ComputeRayColor_step in H. cbn in H. injection H as <- <- <-.
    exists 0%nat. cbn. repeat split; lia. }
  destruct (run_logged_shape env _ _ _ _ _ _ _ _ Hn0 H) as (later & -> & S).
  destruct (scanEvents_hits i_ray objs (scanStart env, w)) as [Hh Hs].
  assert (Hh' : List.length (hitAnswers (rev (scanEvents i_ray objs (scanStart env, w)))) =
                List.length objs) by (rewrite hitAnswers_rev_length; exact Hh).
  assert (Hs' : List.length (scatterAnswers (rev (scanEvents i_ray objs (scanStart env, w)))) =
                0%nat) by (rewrite scatterAnswers_rev_length, Hs; reflexivity).
  rewrite hitAnswers_app, scatterAnswers_app, !length_app, Hh', Hs'.
  destruct S as [_ _|att sray _ _|att sray v d u events _ R _].
  - exists 1%nat. unfold hitAnswers, scatterAnswers. cbn [flat_map app List.length].
    repeat split; lia.
  - exists 1%nat. unfold hitAnswers, scatterAnswers. cbn [flat_map app List.length].
    repeat split; lia.
  - rewrite Int_sub_1 in R by (unfold Int.min_value, Int.max_value in *; lia).
    destruct (IH sray (n - 1) v d u events ltac:(lia) R) as (scans & Hle & Hhits & Hsc & _).
    exists (S scans).
    rewrite hitAnswers_app, scatterAnswers_app, !length_app, Hhits.
    unfold hitAnswers, scatterAnswers in *. cbn [flat_map app List.length Nat.mul].
    repeat split; lia.
Qed.

Lemma run_logged_full_counts objs :
  alwaysHit env objs -> alwaysScatters env ->
  forall (fuel : nat) (i_ray : Ray) (n : Z) w c w' log,
    0 <= n <= Int.max_value ->
    ComputeRayColor (loggedEnv env) fuel i_ray n (map loggedObject objs) (w, []) =
      Some (c, (w', log)) ->
    List.length (hitAnswers log) = (Z.to_nat n * List.length objs)%nat /\
    List.length (scatterAnswers log) = Z.to_nat n.
Proof.
  intros Hhit Hsc. induction fuel as [|fuel IH]; intros i_ray n w c w' log Hn H; [discriminate|].
  rewrite ComputeRayColor_step in H.
  destruct (Z.eqb_spec n 0) as [->|Hn0].
  { injection H as <- <- <-. split; reflexivity. }
  rewrite scan_logged, app_nil_r, Hhit in H.
  cbn [loggedEnv material_at loggedMaterial Scatter fst snd] in H.
  pose proof (Hsc (m_material (record (fst (scan env i_ray objs w)))) i_ray
                  (record (fst (scan env i_ray objs w))) (snd (scan env i_ray objs w))) as Hok.
  destruct (Scatter _ i_ray _ _) as [[[scattered att] sray] w2]. cbn [fst] in Hok. subst scattered.
  rewrite run_logged_shift in H.
  rewrite Int_sub_1 in H by (unfold Int.min_value, Int.max_value in *; lia).
  destruct (ComputeRayColor (loggedEnv env) fuel sray (n - 1) (map loggedObject objs) (w2, []))
    as [[d [w3 events]]|] eqn:E; [|discriminate].
  injection H as <- <- <-.
  destruct (IH sray (n - 1) w2 d w3 events ltac:(lia) E) as [Hh Hs].
  destruct (scanEvents_hits i_ray objs (scanStart env, w)) as [Hh0 Hs0].
  rewrite hitAnswers_app, scatterAnswers_app, !length_app, Hh, Hs.
  change (EvScatter (true, att, sray) :: rev (scanEvents i_ray objs (scanStart env, w)))
    with ([EvScatter (true, att, sray)] ++ rev (scanEvents i_ray objs (scanStart env, w))).
  rewrite hitAnswers_app, scatterAnswers_app, !length_app.
  rewrite hitAnswers_rev_length, scatterAnswers_rev_length, Hh0, Hs0.
  unfold hitAnswers, scatterAnswers. cbn [flat_map app List.length].
  replace (Z.to_nat n) with (S (Z.to_nat (n - 1))) by lia.
  cbn [Nat.mul]. split; lia.
Qed.

Lemma attenuate_zero (a d : Vec3f) :
  numberColor a = true -> zeroColor d = true -> zeroColor (attenuate a d) = true.
Proof.
  destruct a as [a0 a1 a2], d as [d0 d1 d2].
  unfold numberColor, zeroColor, attenuate. cbn [e0 e1 e2]. intros Ha Hd.
  apply andb_prop in Ha as [Ha Ha2]. apply andb_prop in Ha as [Ha0 Ha1].
  apply andb_prop in Hd as [Hd Hd2]. apply andb_prop in Hd as [Hd0 Hd1].
  destruct a0, a1, a2; try discriminate; destruct d0, d1, d2; try discriminate; reflexivity.
Qed.

(** X3. A run with a budget [n] that is not negative scans the scene at
    most [n] times: every scan asks each object of the scene exactly once,
    whether or not a hit was already found, so the run makes [scans * size]
    calls of [Hit] with [scans <= n], and as many calls of [Scatter] as
    scans, or one less; with budget 0 it makes no call at all. *)
Theorem calls_within_budget (fuel : nat) (i_ray : Ray) (n : Z) objs w calls :
  0 <= n <= Int.max_value ->
  runCalls env fuel i_ray n objs w = Some calls ->
  (exists scans : nat,
      Z.of_nat scans <= n /\
      List.length (hitAnswers calls) = (scans * List.length objs)%nat /\
      (List.length (scatterAnswers calls) <= scans <= S (List.length (scatterAnswers calls)))%nat) /\
  (n = 0 -> calls = []) /\
  List.length (scanCalls env i_ray objs w) = List.length objs.
Proof.
  intros Hn. unfold runCalls.
  destruct (ComputeRayColor (loggedEnv env) fuel i_ray n (map loggedObject objs) (w, []))
    as [[c [w' log]]|] eqn:E; [|discriminate].
  intros [= <-].
  destruct (run_logged_counts fuel objs _ _ _ _ _ _ Hn E) as (scans & Hle & Hh & Hs & H0).
  split; [|split].
  - exists scans. rewrite hitAnswers_rev_length, scatterAnswers_rev_length. auto.
  - intros Hz. rewrite (H0 Hz). reflexivity.
  - rewrite scanCalls_events. apply scanEvents_length.
Qed.

(** X4. In a scene that every ray meets and whose materials never absorb,
    the bound of the nesting is attained: for a budget [n] that is not
    negative, [n] nested activations are not enough, and the run that
    returns has scanned the scene [n] times and called [Scatter] [n]
    times. *)
Theorem scattering_scene_uses_whole_budget (fuel : nat) (i_ray : Ray) (n : Z) objs w :
  alwaysHit env objs ->
  alwaysScatters env ->
  0 <= n <= Int.max_value ->
  ((fuel <= Z.to_nat n)%nat -> ComputeRayColor env fuel i_ray n objs w = None) /\
  ((Z.to_nat n < fuel)%nat ->
   exists calls,
     runCalls env fuel i_ray n objs w = Some calls /\
     List.length (hitAnswers calls) = (Z.to_nat n * List.length objs)%nat /\
     List.length (scatterAnswers calls) = Z.to_nat n).
Proof.
  intros Hhit Hsc Hn. split.
  - revert i_ray n w Hn. induction fuel as [|fuel IH]; intros i_ray n w Hn Hfuel; [reflexivity|].
    rewrite ComputeRayColor_step.
    destruct (Z.eqb_spec n 0) as [->|Hn0]; [cbn in Hfuel; lia|].
    pose proof (Hhit i_ray w) as Hh.
    destruct (scan env i_ray objs w) as [s w1]. cbn [fst] in Hh. rewrite Hh.
    pose proof (Hsc (m_material (record s)) i_ray (record s) w1) as Hok.
    destruct (Scatter _ i_ray (record s) w1) as [[[scattered att] sray] w2].
    cbn [fst] in Hok. subst scattered.
    rewrite Int_sub_1 by (unfold Int.min_value, Int.max_value in *; lia).
    rewrite IH by lia. reflexivity.
  - intros Hfuel.
    destruct (ComputeRayColor_total env i_ray n objs w fuel Hn Hfuel) as (c & w' & Hrun).
    rewrite (run_logged_erase env fuel objs) in Hrun. unfold runCalls.
    destruct (ComputeRayColor (loggedEnv env) fuel i_ray n (map loggedObject objs) (w, []))
      as [[d [u log]]|] eqn:E; [|discriminate].
    exists (rev log). split; [reflexivity|].
    rewrite hitAnswers_rev_length, scatterAnswers_rev_length.
    exact (run_logged_full_counts objs Hhit Hsc fuel _ _ _ _ _ _ Hn E).
Qed.

(** X6. In a scene that every ray meets, whatever the budget and whatever
    the materials do, as long as their attenuations are numbers: every
    colour the integrator returns has all its channels zero.  All the light
    of a picture comes from rays that escape to the background. *)
Theorem closed_scene_is_black (fuel : nat) (i_ray : Ray) (n : Z) objs w (c : Vec3f) w' :
  alwaysHit env objs ->
  numberAttenuations env ->
  ComputeRayColor env fuel i_ray n objs w = Some (c, w') ->
  zeroColor c = true.
Proof.
  intros Hhit Hnum. revert i_ray n w c w'.
  induction fuel as [|fuel IH]; intros i_ray n w c w'; [discriminate|].
  rewrite ComputeRayColor_step.
  destruct (n =? 0); [intros [= <- <-]; reflexivity|].
  pose proof (Hhit i_ray w) as Hh.
  destruct (scan env i_ray objs w) as [s w1]. cbn [fst] in Hh. rewrite Hh.
  pose proof (Hnum (m_material (record s)) i_ray (record s) w1) as Hatt.
  destruct (Scatter _ i_ray (record s) w1) as [[[scattered att] sray] w2].
  cbn [fst snd] in Hatt.
  destruct scattered; [|intros [= <- <-]; reflexivity].
  destruct (ComputeRayColor env fuel sray (Int.sub n 1) objs w2) as [[d w3]|] eqn:E;
    [|discriminate].
  intros [= <- <-]. apply attenuate_zero; [exact Hatt|exact (IH _ _ _ _ _ E)].
Qed.

End RunFacts.

(* ================================================================== *)
(** * What the scan leaves in its locals *)

Section ScanInvariant.

Context {World MaterialPtr : Type}.
Variable env : Collaborators World MaterialPtr.

Implicit Types (objs : SceneObjectPtrs World MaterialPtr) (w : World).

Lemma scanFrom_keeps (i_ray : Ray) objs :
  (forall o, In o objs -> keepsRecordOnMiss o) ->
  forall st : ScanState MaterialPtr * World,
    objectHit (fst (scanFrom i_ray objs st)) =
      objectHit (fst st) || existsb fst (hitAnswers (scanEvents i_ray objs st)) /\
    (existsb fst (hitAnswers (scanEvents i_ray objs st)) = true ->
     nearestHitMagnitude (fst (scanFrom i_ray objs st)) =
       m_magnitude (record (fst (scanFrom i_ray objs st))) /\
     In (true, record (fst (scanFrom i_ray objs st)))
        (hitAnswers (scanEvents i_ray objs st))) /\
    (existsb fst (hitAnswers (scanEvents i_ray objs st)) = false ->
     fst (scanFrom i_ray objs st) = fst st).
Proof.
  induction objs as [|o objs IH]; intros Hkeep st.
  - cbn. rewrite orb_false_r. repeat split; discriminate.
  - rewrite scanFrom_cons. cbn [scanEvents].
    change (hitAnswers (EvHit ?rg ?a :: ?rest)) with (a :: hitAnswers rest).
    cbn [existsb].
    destruct (IH (fun o' Ho' => Hkeep o' (or_intror Ho')) (scanStep i_ray st o))
      as (Hhit & Hsome & Hnone).
    pose proof (scanStep_replay i_ray o st) as Hstep.
    pose proof (Hkeep o (or_introl eq_refl) i_ray
                      (mkFloatRange shadowAcneBound (nearestHitMagnitude (fst st)))
                      (record (fst st)) (snd st)) as Hmiss.
    destruct (fst (Hit o i_ray _ (record (fst st)) (snd st))) as [hit r] eqn:Ea.
    cbn [fst snd] in *. unfold replayStep in Hstep. cbn [fst snd] in Hstep.
    destruct (existsb fst (hitAnswers (scanEvents i_ray objs (scanStep i_ray st o)))) eqn:Erest.
    + rewrite orb_true_r. split; [|split; [|discriminate]].
      * rewrite Hhit, orb_true_r. rewrite orb_true_r. reflexivity.
      * intros _. destruct (Hsome eq_refl) as [Hmag Hin]. split; [exact Hmag|right; exact Hin].
    + rewrite orb_false_r. rewrite (Hnone eq_refl), Hstep.
      destruct hit; cbn [objectHit nearestHitMagnitude record].
      * split; [rewrite orb_true_r; reflexivity|].
        split; [|discriminate]. intros _. split; [reflexivity|left; reflexivity].
      * split; [rewrite orb_false_r; reflexivity|].
        split; [discriminate|]. intros _. rewrite (Hmiss eq_refl).
        destruct (fst st); reflexivity.
Qed.

(** X5. When every object leaves the record untouched on a miss: after the
    scan, [objectHit] tells whether some object reported a hit; if so the
    record is the one of a reported hit and the tracked magnitude is its
    magnitude, so that the material consulted is the one of the hit the
    magnitude belongs to; if not, the record is still the default one and
    the magnitude still the largest [float]. *)
Theorem scan_record_is_tracked_hit (i_ray : Ray) objs w :
  (forall o, In o objs -> keepsRecordOnMiss o) ->
  objectHit (fst (scan env i_ray objs w)) =
    existsb fst (hitAnswers (scanCalls env i_ray objs w)) /\
  (objectHit (fst (scan env i_ray objs w)) = true ->
   nearestHitMagnitude (fst (scan env i_ray objs w)) =
     m_magnitude (record (fst (scan env i_ray objs w))) /\
   In (true, record (fst (scan env i_ray objs w))) (hitAnswers (scanCalls env i_ray objs w))) /\
  (objectHit (fst (scan env i_ray objs w)) = false ->
   record (fst (scan env i_ray objs w)) = defaultHitRecord env /\
   nearestHitMagnitude (fst (scan env i_ray objs w)) = F32.max_value).
Proof.
  intros Hkeep. rewrite scanCalls_events. unfold scan.
  destruct (scanFrom_keeps i_ray objs Hkeep (scanStart env, w)) as (Hhit & Hsome & Hnone).
  cbn [fst scanStart objectHit orb] in Hhit.
  split; [exact Hhit|]. rewrite Hhit. split.
  - exact Hsome.
  - intros Hno. rewrite (Hnone Hno). split; reflexivity.
Qed.

End ScanInvariant.

(* ================================================================== *)
(** * Colours stay in the unit cube *)

Lemma SFleb_trans (x y z : spec_float) :
  SFleb x y = true -> SFleb y z = true -> SFleb x z = true.
Proof.
  unfold SFleb, SFcompare.
  destruct x as [sx|sx| |sx mx ex], y as [sy|sy| |sy my ey], z as [sz|sz| |sz mz ez];
    try destruct sx; try destruct sy; try destruct sz;
    try discriminate; try reflexivity; intros Hxy Hyz;
    compare_cases; cbn [CompOpp] in *; subst; try discriminate; try reflexivity; try lia.
Qed.

(** Rounding keeps the sign it is given. *)
Lemma binary_round_aux_nonneg (m : positive) (e : Z) :
  SFleb (S754_zero false) (binary_round_aux F32.prec F32.emax false (Zpos m) e loc_Exact) = true.
Proof.
  unfold binary_round_aux.
  pose proof (shr_fexp_exact (Zpos m) e ltac:(lia)) as H1.
  destruct (shr_fexp F32.prec F32.emax (Zpos m) e loc_Exact) as [r1 e1].
  destruct H1 as [_ Hq].
  assert (Hq0 : 0 <= shr_m r1)
    by (rewrite Hq; apply Z.div_pos; [lia|apply Z.pow_pos_nonneg; lia]).
  pose proof (round_nearest_even_ge r1) as Hge.
  set (m1 := round_nearest_even (shr_m r1) (loc_of_shr_record r1)) in *.
  pose proof (shr_fexp_exact m1 e1 ltac:(lia)) as H2.
  destruct (shr_fexp F32.prec F32.emax m1 e1 loc_Exact) as [r2 e2].
  destruct H2 as [_ Hr2].
  assert (Hr0 : 0 <= shr_m r2)
    by (rewrite Hr2; apply Z.div_pos; [lia|apply Z.pow_pos_nonneg; lia]).
  destruct (shr_m r2) as [|m2|m2]; [reflexivity| |lia].
  destruct (e2 <=? F32.emax - F32.prec); reflexivity.
Qed.

(** The unit interval is closed under the rounded product. *)
Lemma unitInterval_mul (a d : F32.float) :
  unitInterval a = true -> unitInterval d = true -> unitInterval (F32.mul a d) = true.
Proof.
  intros Ha Hd.
  pose proof (F32_mul_le_l a d Ha Hd) as Hle.
  unfold unitInterval.
  assert (Hva : F32.valid a = true /\ F32.leb a F32.one = true).
  { unfold unitInterval in Ha. apply andb_prop in Ha as [Ha H1].
    apply andb_prop in Ha as [Hv _]. split; assumption. }
  assert (Hvd : F32.valid d = true).
  { unfold unitInterval in Hd. apply andb_prop in Hd as [Hd _].
    apply andb_prop in Hd as [Hv _]. assumption. }
  destruct Hva as [Hva Ha1].
  apply andb_true_intro; split; [apply andb_true_intro; split|].
  - apply SFmul_valid; assumption.
  - unfold F32.leb, F32.mul, F32.zero.
    destruct (unitInterval_inv a Ha) as [[sa ->]|(ma & ea & -> & _)];
    destruct (unitInterval_inv d Hd) as [[sd ->]|(md & ed & -> & _)];
    try reflexivity.
    cbn [SFmul xorb]. apply binary_round_aux_nonneg.
  - exact (SFleb_trans _ _ _ Hle Ha1).
Qed.

Lemma unitColor_attenuate (a d : Vec3f) :
  unitColor a = true -> unitColor d = true -> unitColor (attenuate a d) = true.
Proof.
  unfold unitColor, attenuate. cbn [e0 e1 e2]. intros Ha Hd.
  apply andb_prop in Ha as [Ha Ha2]. apply andb_prop in Ha as [Ha0 Ha1].
  apply andb_prop in Hd as [Hd Hd2]. apply andb_prop in Hd as [Hd0 Hd1].
  rewrite !unitInterval_mul by assumption. reflexivity.
Qed.

Lemma unitColor_black : unitColor black = true.
Proof. vm_compute. reflexivity. Qed.

Section UnitCube.

Context {World MaterialPtr : Type}.
Variable env : Collaborators World MaterialPtr.

(** X7. Take any family of rays that scattering never leaves, on which
    every attenuation handed out and every background colour has its
    three channels valid binary32 numbers of [[0,1]].  Then every colour
    the integrator returns for a ray of the family, whatever the budget
    and the scene, has its three channels valid numbers of [[0,1]]: the
    channel products of the recursion round inside the interval at every
    depth. *)
Theorem color_stays_in_unit_cube (inPlay : Ray -> Prop)
        (fuel : nat) (i_ray : Ray) (n : Z) objs w (c : Vec3f) w' :
  (forall r, inPlay r -> unitColor (backgroundColor env r) = true) ->
  (forall p r h u a s u',
      inPlay r ->
      Scatter (material_at env p) r h u = (true, a, s, u') ->
      unitColor a = true /\ inPlay s) ->
  inPlay i_ray ->
  ComputeRayColor env fuel i_ray n objs w = Some (c, w') ->
  unitColor c = true.
Proof.
  intros Hbg Hsc. revert i_ray n w c w'.
  induction fuel as [|fuel IH]; intros i_ray n w c w' Hin; [discriminate|].
  rewrite ComputeRayColor_step.
  destruct (n =? 0); [intros [= <- <-]; apply unitColor_black|].
  destruct (scan env i_ray objs w) as [s w1].
  destruct (objectHit s); [|intros [= <- <-]; apply Hbg; exact Hin].
  destruct (Scatter _ i_ray (record s) w1) as [[[scattered att] sray] w2] eqn:Es.
  destruct scattered; [|intros [= <- <-]; apply unitColor_black].
  destruct (Hsc _ _ _ _ _ _ _ Hin Es) as [Hatt Hin'].
  destruct (ComputeRayColor env fuel sray (Int.sub n 1) objs w2) as [[d w3]|] eqn:E;
    [|discriminate].
  intros [= <- <-]. apply unitColor_attenuate; [exact Hatt|exact (IH _ _ _ _ _ Hin' E)].
Qed.

End UnitCube.

(* ================================================================== *)
(** * The whole picture *)

Lemma visited_fuel_mono (fuel fuel' : nat) (it last : Vec2iRange.iterator) (l : list Vec2i) :
  (fuel <= fuel')%nat ->
  Vec2iRange.visited fuel it last = Some l -> Vec2iRange.visited fuel' it last = Some l.
Proof.
  revert fuel' it l. induction fuel as [|fuel IH]; intros fuel' it l Hle; [discriminate|].
  destruct fuel' as [|fuel']; [lia|]. cbn [Vec2iRange.visited].
  destruct (Vec2iRange.neq it last); [|trivial].
  destruct (Vec2iRange.visited fuel (Vec2iRange.incr it) last) as [l0|] eqn:E; [|discriminate].
  rewrite (IH fuel' _ l0 ltac:(lia) E). trivial.
Qed.

(** Whatever the fuel, a finished iteration went through the cells. *)
Lemma elements_are_cells (r : Vec2iRange.t) (fuel : nat) (l : list Vec2i) :
  AnyRange.noOverflow r -> Vec2iRange.m_min r <> Vec2iRange.m_max r ->
  Vec2iRange.elements fuel r = Some l -> l = AnyRange.cells r.
Proof.
  intros Hints Hdistinct Hrun.
  set (fuel' := Nat.max fuel (S (Z.to_nat (AnyRange.columns r * AnyRange.rows r)))).
  pose proof (visited_fuel_mono fuel fuel' _ _ l ltac:(lia) Hrun) as Hrun'.
  pose proof (elements_cells r Hints Hdistinct fuel' ltac:(lia)) as Hcells.
  unfold Vec2iRange.elements in Hcells. congruence.
Qed.


(** The cells of a range with a positive extent are the points of its
    rectangle. *)
Lemma In_cells (r : Vec2iRange.t) (x y : Z) :
  0 < Vec2iRange.width r -> 0 < Vec2iRange.height r ->
  In (mkVec2i x y) (AnyRange.cells r) <->
  i0 (Vec2iRange.m_min r) <= x < i0 (Vec2iRange.m_max r) /\
  i1 (Vec2iRange.m_min r) <= y < i1 (Vec2iRange.m_max r).
Proof.
  intros HW HH. unfold AnyRange.cells, AnyRange.cell, AnyRange.columns, AnyRange.rows.
  rewrite !Z.max_r by lia. rewrite in_map_iff.
  unfold Vec2iRange.width, Vec2iRange.height in *.
  set (x0 := i0 (Vec2iRange.m_min r)) in *. set (y0 := i1 (Vec2iRange.m_min r)) in *.
  set (W := i0 (Vec2iRange.m_max r) - x0) in *. set (H := i1 (Vec2iRange.m_max r) - y0) in *.
  split.
  - intros (k & Hk & Hin). apply in_seq in Hin. injection Hk as <- <-.
    pose proof (Z.mod_pos_bound (Z.of_nat k) W HW).
    assert (0 <= Z.of_nat k / W) by (apply Z.div_pos; lia).
    assert (Z.of_nat k / W < H) by (apply Z.div_lt_upper_bound; lia).
    lia.
  - intros [Hx Hy]. exists (Z.to_nat ((y - y0) * W + (x - x0))).
    assert (Hk : 0 <= (y - y0) * W + (x - x0) < W * H) by nia.
    rewrite Z2Nat.id by lia. split.
    + assert (Hm : ((y - y0) * W + (x - x0)) mod W = x - x0).
      { rewrite Z.add_comm, Z.mod_add, Z.mod_small by lia. reflexivity. }
      assert (Hd : ((y - y0) * W + (x - x0)) / W = y - y0).
      { rewrite Z.add_comm, Z.div_add, Z.div_small by lia. reflexivity. }
      rewrite Hm, Hd. f_equal; lia.
    + apply in_seq. lia.
Qed.

Lemma Vec2i_eq_dec (a b : Vec2i) : {a = b} + {a <> b}.
Proof. decide equality; apply Z.eq_dec. Qed.

Section PictureFacts.

Context {World MaterialPtr : Type}.
Variable env : Collaborators World MaterialPtr.
Variable pf : Platform World MaterialPtr.

Section WholeRender.

Variable fuel : nat.
Variables imageWidth imageHeight samplesPerPixel rayBounceLimit : Z.
Variable camera : Camera.
Variable sceneObjectPtrs : SceneObjectPtrs World MaterialPtr.

(** What a run of the loop over a list of pixels leaves in the image. *)
Lemma renderPixels_written (pixels : list Vec2i) :
  forall (image : RGBImageBuffer) (w : World) (image' : RGBImageBuffer) (w' : World),
    renderPixels env pf fuel imageWidth imageHeight samplesPerPixel rayBounceLimit camera
                 sceneObjectPtrs pixels (image, w) = Some (image', w') ->
    img_width image' = img_width image /\ img_height image' = img_height image /\
    forall x y,
      (In (mkVec2i x y) pixels ->
       exists w0 sum w1,
         sampleLoop env pf fuel imageWidth imageHeight rayBounceLimit camera sceneObjectPtrs
                    (Z.to_nat samplesPerPixel) (mkVec2i x y) (defaultVec3f pf) w0
         = Some (sum, w1) /\
         pixelAt image' x y = finalize pf samplesPerPixel sum) /\
      (~ In (mkVec2i x y) pixels -> pixelAt image' x y = pixelAt image x y).
Proof.
  induction pixels as [|p rest IH]; intros image w image' w'; cbn [renderPixels].
  - intros [= <- <-]. split; [reflexivity|]. split; [reflexivity|].
    intros x y. split; [intros []|reflexivity].
  - unfold renderPixel.
    destruct (sampleLoop env pf fuel imageWidth imageHeight rayBounceLimit camera sceneObjectPtrs
                         (Z.to_nat samplesPerPixel) p (defaultVec3f pf) w)
      as [[sum w1]|] eqn:E; [|discriminate].
    intros Hrest. destruct (IH _ _ _ _ Hrest) as (Hw & Hh & Hpix).
    split; [exact Hw|]. split; [exact Hh|].
    intros x y. destruct (Hpix x y) as [Hin Hout]. split.
    + intros Hxy. destruct (in_dec Vec2i_eq_dec (mkVec2i x y) rest) as [Hr|Hr];
        [exact (Hin Hr)|].
      destruct Hxy as [->|Hxy]; [|contradiction].
      exists w, sum, w1. split; [exact E|].
      rewrite (Hout Hr). unfold assign. cbn [pixelAt i0 i1]. rewrite !Z.eqb_refl. reflexivity.
    + intros Hxy. rewrite Hout by (intros Hr; apply Hxy; right; exact Hr).
      unfold assign. cbn [pixelAt].
      destruct (Z.eqb_spec x (i0 p)) as [->|]; [|reflexivity].
      destruct (Z.eqb_spec y (i1 p)) as [->|]; [|reflexivity].
      exfalso. apply Hxy. left. destruct p; reflexivity.
Qed.

(** With a bounce limit that is not negative, or without samples, the loop
    over the pixels runs to its end. *)
Lemma renderPixels_total (pixels : list Vec2i) :
  0 <= rayBounceLimit <= Int.max_value /\ (Z.to_nat rayBounceLimit < fuel)%nat \/
  samplesPerPixel <= 0 ->
  forall st, exists st',
    renderPixels env pf fuel imageWidth imageHeight samplesPerPixel rayBounceLimit camera
                 sceneObjectPtrs pixels st = Some st'.
Proof.
  intros Hlimit. induction pixels as [|p rest IH]; intros [image w]; cbn [renderPixels].
  - eauto.
  - unfold renderPixel.
    assert (Hsum : exists sum w1,
               sampleLoop env pf fuel imageWidth imageHeight rayBounceLimit camera sceneObjectPtrs
                          (Z.to_nat samplesPerPixel) p (defaultVec3f pf) w = Some (sum, w1)).
    { destruct Hlimit as [[Hlimit Hfuel]|Hnone].
      - apply sampleLoop_total; assumption.
      - replace (Z.to_nat samplesPerPixel) with 0%nat by lia. cbn [sampleLoop]. eauto. }
    destruct Hsum as (sum & w1 & ->). apply IH.
Qed.

(** Without samples a pixel is written without a draw or a query. *)
Lemma renderPixels_no_samples (pixels : list Vec2i) :
  samplesPerPixel <= 0 ->
  forall (image : RGBImageBuffer) (w : World),
  exists image',
    renderPixels env pf fuel imageWidth imageHeight samplesPerPixel rayBounceLimit camera
                 sceneObjectPtrs pixels (image, w) = Some (image', w) /\
    forall x y,
      (In (mkVec2i x y) pixels ->
       pixelAt image' x y = finalize pf samplesPerPixel (defaultVec3f pf)) /\
      (~ In (mkVec2i x y) pixels -> pixelAt image' x y = pixelAt image x y).
Proof.
  intros Hnone image w.
  destruct (renderPixels_total pixels (or_intror Hnone) (image, w)) as [[image' w'] Hrun].
  pose proof (renderPixels_written pixels image w image' w' Hrun) as (_ & _ & Hpix).
  assert (Hw : w' = w).
  { clear Hpix. revert image Hrun. induction pixels as [|p rest IH]; intros image;
      cbn [renderPixels]; [intros [= _ <-]; reflexivity|].
    unfold renderPixel. replace (Z.to_nat samplesPerPixel) with 0%nat by lia.
    cbn [sampleLoop]. apply IH. }
  subst w'. exists image'. split; [exact Hrun|].
  intros x y. destruct (Hpix x y) as [Hin Hout]. split; [|exact Hout].
  intros Hxy. destruct (Hin Hxy) as (w0 & sum & w1 & Hsum & ->).
  replace (Z.to_nat samplesPerPixel) with 0%nat in Hsum by lia.
  cbn [sampleLoop] in Hsum. injection Hsum as <- _. reflexivity.
Qed.

Lemma positive_extent (image : RGBImageBuffer) :
  0 < img_width image <= Int.max_value ->
  0 < img_height image <= Int.max_value ->
  AnyRange.noOverflow (Extent image) /\
  Vec2iRange.m_min (Extent image) <> Vec2iRange.m_max (Extent image) /\
  0 < Vec2iRange.width (Extent image) /\ 0 < Vec2iRange.height (Extent image).
Proof.
  intros HW HH.
  unfold AnyRange.noOverflow, Extent, Vec2iRange.width, Vec2iRange.height, Int.in_range,
    Int.min_value, Int.max_value in *.
  cbn [Vec2iRange.m_min Vec2iRange.m_max i0 i1].
  repeat split; try lia. intros [= Heq _]. lia.
Qed.


(** X8. A picture of positive width and height: when the loop over
    [image.Extent()] has run, the picture has the size it had; every pixel
    [(x, y)] with [0 <= x < width] and [0 <= y < height] holds the
    finalized sum (averaged, square-rooted, clamped) of a run of the
    sample loop for that very pixel, started from the default colour; and
    every cell outside that rectangle holds what it held before. *)
Theorem render_writes_the_extent (image image' : RGBImageBuffer) (w w' : World) :
  0 < img_width image <= Int.max_value ->
  0 < img_height image <= Int.max_value ->
  render env pf fuel imageWidth imageHeight samplesPerPixel rayBounceLimit camera
         sceneObjectPtrs image w = Some (image', w') ->
  img_width image' = img_width image /\ img_height image' = img_height image /\
  forall x y,
    (0 <= x < img_width image /\ 0 <= y < img_height image ->
     exists w0 sum w1,
       sampleLoop env pf fuel imageWidth imageHeight rayBounceLimit camera sceneObjectPtrs
                  (Z.to_nat samplesPerPixel) (mkVec2i x y) (defaultVec3f pf) w0
       = Some (sum, w1) /\
       pixelAt image' x y = finalize pf samplesPerPixel sum) /\
    (~ (0 <= x < img_width image /\ 0 <= y < img_height image) ->
     pixelAt image' x y = pixelAt image x y).
Proof.
  intros HW HH. destruct (positive_extent image HW HH) as (Hints & Hne & Hw & Hh).
  unfold render.
  destruct (Vec2iRange.elements fuel (Extent image)) as [pixels|] eqn:El; [|discriminate].
  rewrite (elements_are_cells _ _ _ Hints Hne El). intros Hrun.
  destruct (renderPixels_written _ _ _ _ _ Hrun) as (Hiw & Hih & Hpix).
  split; [exact Hiw|]. split; [exact Hih|].
  intros x y. destruct (Hpix x y) as [Hin Hout].
  pose proof (In_cells (Extent image) x y Hw Hh) as Hcells.
  cbn [Extent Vec2iRange.m_min Vec2iRange.m_max i0 i1] in Hcells.
  split.
  - intros Hxy. apply Hin, Hcells. exact Hxy.
  - intros Hxy. apply Hout. intros Hc. apply Hxy, Hcells. exact Hc.
Qed.

(** X10. Without samples ([samplesPerPixel <= 0]) the loop over a picture
    of positive width and height ends whatever the bounce limit and the
    scene are, negative limit included; it draws no random number and
    queries no object (the world comes out as it went in); and every pixel
    of the picture gets one and the same colour, the finalized default
    colour, the cells outside keeping theirs. *)
Theorem no_samples_uniform_picture (image : RGBImageBuffer) (w : World) :
  samplesPerPixel <= 0 ->
  0 < img_width image <= Int.max_value ->
  0 < img_height image <= Int.max_value ->
  (Z.to_nat (img_width image * img_height image) < fuel)%nat ->
  exists image',
    render env pf fuel imageWidth imageHeight samplesPerPixel rayBounceLimit camera
           sceneObjectPtrs image w = Some (image', w) /\
    forall x y,
      (0 <= x < img_width image /\ 0 <= y < img_height image ->
       pixelAt image' x y = finalize pf samplesPerPixel (defaultVec3f pf)) /\
      (~ (0 <= x < img_width image /\ 0 <= y < img_height image) ->
       pixelAt image' x y = pixelAt image x y).
Proof.
  intros Hnone HW HH Hfuel. destruct (positive_extent image HW HH) as (Hints & Hne & Hw & Hh).
  unfold render. rewrite (elements_cells _ Hints Hne fuel).
  - destruct (renderPixels_no_samples (AnyRange.cells (Extent image)) Hnone image w)
      as (image' & Hrun & Hpix).
    exists image'. split; [exact Hrun|].
    intros x y. destruct (Hpix x y) as [Hin Hout].
    pose proof (In_cells (Extent image) x y Hw Hh) as Hcells.
    cbn [Extent Vec2iRange.m_min Vec2iRange.m_max i0 i1] in Hcells.
    split.
    + intros Hxy. apply Hin, Hcells. exact Hxy.
    + intros Hxy. apply Hout. intros Hc. apply Hxy, Hcells. exact Hc.
  - unfold AnyRange.columns, AnyRange.rows. rewrite !Z.max_r by lia.
    unfold Vec2iRange.width, Vec2iRange.height, Extent.
    cbn [Vec2iRange.m_min Vec2iRange.m_max i0 i1]. rewrite !Z.sub_0_r. exact Hfuel.
Qed.

End WholeRender.


End PictureFacts.

(* ================================================================== *)
(** * The properties at work on the test scene *)

Lemma scattered_ray_attenuates_witness :
  ComputeRayColor TestScene.env 4 TestScene.rayDown 3 [TestScene.nearFloor] 0%nat =
  match ComputeRayColor TestScene.env 3 (mkRay TestScene.zeroVec TestScene.up) (3 - 1)
                        [TestScene.nearFloor] 1%nat with
  | Some (descendentColor, w3) =>
    Some (mkVec3f (F32.mul F32.half (e0 descendentColor))
                  (F32.mul F32.half (e1 descendentColor))
                  (F32.mul F32.half (e2 descendentColor)), w3)
  | None => None
  end /\
  (exists (descendentColor : Vec3f) (w3 : TestScene.World),
      ComputeRayColor TestScene.env 3 (mkRay TestScene.zeroVec TestScene.up) (3 - 1)
                      [TestScene.nearFloor] 1%nat = Some (descendentColor, w3) /\
      ComputeRayColor TestScene.env 4 TestScene.rayDown 3 [TestScene.nearFloor] 0%nat =
      Some (mkVec3f (F32.mul F32.half (e0 descendentColor))
                    (F32.mul F32.half (e1 descendentColor))
                    (F32.mul F32.half (e2 descendentColor)), w3)) /\
  channelsLe (mkVec3f (F32.mul F32.half (e0 skyBlue)) (F32.mul F32.half (e1 skyBlue))
                      (F32.mul F32.half (e2 skyBlue))) TestScene.grey = true /\
  channelsLe (mkVec3f (F32.mul F32.half (e0 skyBlue)) (F32.mul F32.half (e1 skyBlue))
                      (F32.mul F32.half (e2 skyBlue))) skyBlue = true.
Proof.
  assert (H := scattered_ray_attenuates TestScene.env 3 TestScene.rayDown 3
                 [TestScene.nearFloor] 0%nat
                 (fst (scan TestScene.env TestScene.rayDown [TestScene.nearFloor] 0%nat))
                 0%nat 1%nat TestScene.grey (mkRay TestScene.zeroVec TestScene.up)).
  destruct H as (Hrun & Hret & Hle).
  - lia.
  - unfold Int.min_value, Int.max_value. lia.
  - reflexivity.
  - reflexivity.
  - reflexivity.
  - split; [exact Hrun|]. split; [apply Hret; [lia|apply le_n]|].
    apply (Hle TestScene.grey skyBlue); vm_compute; reflexivity.
Defined.

Lemma escaped_ray_is_background_witness :
  ComputeRayColor TestScene.env 1 TestScene.rayUp 3 [TestScene.darkFloor] 0%nat =
  Some (lerpModel (mkVec3f F32.one F32.one F32.one)
                  (mkVec3f F32.half (float_of_double (F64.of_ratio 7 10)) F32.one)
                  (F32.of_scaled 3 (-1)), 0%nat).
Proof.
  refine (proj1 (escaped_ray_is_background TestScene.env 0 TestScene.rayUp 3
                   [TestScene.darkFloor] 0%nat _ _)).
  - lia.
  - reflexivity.
Defined.

(** C3 as stated fails: for the direction [(0,2,0)], whose normalization is
    [(0,1,0)], the integrator interpolates at weight 2 and not at the weight
    1.5 of the normalized direction, and the two colours differ. *)
Lemma unnormalized_ray_background :
  normalizeModel (Direction TestScene.rayUp2) = TestScene.up /\
  ComputeRayColor TestScene.env 1 TestScene.rayUp2 1 [] 0%nat =
    Some (lerpModel white skyBlue (F32.of_int 2), 0%nat) /\
  ComputeRayColor TestScene.env 1 TestScene.rayUp2 1 [] 0%nat <>
    Some (lerpModel white skyBlue
            (float_of_double
               (F64.add (double_of_float
                           (F32.mul F32.half (e1 (normalizeModel (Direction TestScene.rayUp2)))))
                        F64.one)), 0%nat).
Proof.
  split; [|split].
  - vm_compute. reflexivity.
  - vm_compute. reflexivity.
  - vm_compute. discriminate.
Qed.

Lemma nonnegative_budget_terminates_witness :
  exists c w',
    ComputeRayColor TestScene.env 4 TestScene.rayDown 3 [TestScene.box] 0%nat = Some (c, w').
Proof.
  refine (proj1 (nonnegative_budget_terminates TestScene.env TestScene.rayDown 3
                   [TestScene.box] 0%nat 4 _ _)).
  - unfold Int.max_value. lia.
  - cbn. lia.
Defined.

(** C5 as stated fails: with the bounce limit -1, inside a closed box whose
    walls always scatter, a thousand nested activations do not reach the
    base case. *)
Lemma negative_budget_recursion :
  Int.in_range (-1) /\
  ComputeRayColor TestScene.env 1 TestScene.rayDown (-1) [TestScene.box] 0%nat = None /\
  ComputeRayColor TestScene.env 1000 TestScene.rayDown (-1) [TestScene.box] 0%nat = None.
Proof.
  split; [|split].
  - unfold Int.in_range, Int.min_value, Int.max_value. lia.
  - vm_compute. reflexivity.
  - vm_compute. reflexivity.
Qed.

Lemma absorbed_ray_is_black_witness :
  ComputeRayColor TestScene.env 1 TestScene.rayDown 3 [TestScene.darkFloor] 0%nat =
    Some (black, 0%nat) /\
  ComputeRayColor TestScene.env 1 TestScene.rayUp 3 [TestScene.darkFloor] 0%nat =
    Some (backgroundColor TestScene.env TestScene.rayUp, 0%nat) /\
  ComputeRayColor TestScene.env 1 TestScene.rayDown 0 [TestScene.darkFloor] 0%nat =
    Some (black, 0%nat).
Proof.
  split; [|split].
  - refine (proj1 (absorbed_ray_is_black TestScene.env 0 TestScene.rayDown 3
                     [TestScene.darkFloor] 0%nat) _ _ _).
    + lia.
    + reflexivity.
    + reflexivity.
  - refine (proj1 (proj2 (absorbed_ray_is_black TestScene.env 0 TestScene.rayUp 3
                            [TestScene.darkFloor] 0%nat)) _ _).
    + lia.
    + reflexivity.
  - refine (proj2 (proj2 (absorbed_ray_is_black TestScene.env 0 TestScene.rayDown 0
                            [TestScene.darkFloor] 0%nat)) _).
    reflexivity.
Defined.

Lemma floor_returnsNearestRoot (t : F32.float) (p : TestScene.MaterialPtr) :
  inside (mkFloatRange shadowAcneBound F32.max_value) t = true ->
  returnsNearestRoot (TestScene.floor t p) (TestScene.rootsOf (TestScene.floor t p)).
Proof.
  intros Ht i_ray rg o_record w.
  assert (Hroots : TestScene.rootsOf (TestScene.floor t p) i_ray = TestScene.floorRoots t p i_ray).
  { unfold TestScene.rootsOf, TestScene.floor, TestScene.objectOfRoots, TestScene.floorRoots.
    cbn [Hit]. destruct (F32.leb (Y (Direction i_ray)) F32.zero); [|reflexivity].
    cbn [nearestRoot m_magnitude]. rewrite Ht. reflexivity. }
  rewrite Hroots. reflexivity.
Qed.

Lemma nearest_hit_wins_witness :
  nearestHitMagnitude
    (fst (scan TestScene.env TestScene.rayDown [TestScene.farFloor; TestScene.nearFloor] 0%nat)) =
  smallestReported F32.max_value
    (hitAnswers (scanCalls TestScene.env TestScene.rayDown
                           [TestScene.farFloor; TestScene.nearFloor] 0%nat)) /\
  ComputeRayColor TestScene.env 3 TestScene.rayDown 2
                  [TestScene.nearFloor; TestScene.farFloor] 0%nat =
  ComputeRayColor TestScene.env 3 TestScene.rayDown 2
                  [TestScene.farFloor; TestScene.nearFloor] 0%nat.
Proof.
  assert (Hc : forall o, In o [TestScene.farFloor; TestScene.nearFloor] ->
                         returnsNearestRoot o (TestScene.rootsOf o)).
  { intros o [<-|[<-|[]]]; apply floor_returnsNearestRoot; vm_compute; reflexivity. }
  destruct (nearest_hit_wins TestScene.env TestScene.rootsOf
              [TestScene.farFloor; TestScene.nearFloor] Hc) as (_ & Hnear & Hperm).
  split.
  - apply Hnear.
  - apply Hperm.
    + intros i_ray h h'. unfold TestScene.rootsOf. cbn [flat_map app].
      cbn [TestScene.farFloor TestScene.nearFloor TestScene.floor TestScene.objectOfRoots Hit
           TestScene.floorRoots].
      unfold TestScene.floorRoots.
      destruct (F32.leb (Y (Direction i_ray)) F32.zero); cbn; [|intros []].
      intros [<-|[<-|[]]] [<-|[<-|[]]]; cbn; try reflexivity; discriminate.
    + apply perm_swap.
Defined.

(** C4 as stated fails: two objects that answer [Hit] with their nearest
    in-range root and meet the ray at the same parameter; the object
    scanned first wins, and the colour depends on the order of the list. *)
Lemma tie_depends_on_order :
  returnsNearestRoot TestScene.nearFloor (TestScene.floorRoots F32.one true) /\
  returnsNearestRoot TestScene.darkFloor (TestScene.floorRoots F32.one false) /\
  Permutation [TestScene.nearFloor; TestScene.darkFloor]
              [TestScene.darkFloor; TestScene.nearFloor] /\
  ComputeRayColor TestScene.env 2 TestScene.rayDown 2
                  [TestScene.nearFloor; TestScene.darkFloor] 0%nat <>
  ComputeRayColor TestScene.env 2 TestScene.rayDown 2
                  [TestScene.darkFloor; TestScene.nearFloor] 0%nat.
Proof.
  split; [|split; [|split]].
  - intros i_ray rg o_record w. reflexivity.
  - intros i_ray rg o_record w. reflexivity.
  - apply perm_swap.
  - vm_compute. discriminate.
Qed.

Lemma same_answers_same_color_witness :
  option_map fst (ComputeRayColor TestScene.env 3 TestScene.rayDown 2
                                  [TestScene.farFloor; TestScene.nearFloor] 0%nat) =
  option_map fst (ComputeRayColor TestScene.env 3 TestScene.rayDown 2
                                  [TestScene.farFloor; TestScene.nearFloor] 5%nat).
Proof.
  change (Some (attenuate TestScene.grey (backgroundColor TestScene.env TestScene.rayUp)) =
          Some (attenuate TestScene.grey (backgroundColor TestScene.env TestScene.rayUp))).
  refine (f_equal Some _).
  refine (proj1 (same_answers_same_color TestScene.env 3 TestScene.rayDown 2
                   [TestScene.farFloor; TestScene.nearFloor] 0%nat 5%nat 1%nat 6%nat
                   _ _ _ _ _)).
  - reflexivity.
  - reflexivity.
  - reflexivity.
Defined.

Lemma range_iteration_is_row_major_witness :
  Vec2iRange.elements 7 (Vec2iRange.mk (mkVec2i 0 0) (mkVec2i 3 2)) =
  Some [mkVec2i 0 0; mkVec2i 1 0; mkVec2i 2 0; mkVec2i 0 1; mkVec2i 1 1; mkVec2i 2 1].
Proof.
  refine (proj1 (range_iteration_is_row_major
                   (Vec2iRange.mk (mkVec2i 0 0) (mkVec2i 3 2)) _ _ _ _ _ _) 7%nat _).
  - unfold Int.in_range, Int.min_value, Int.max_value. cbn. lia.
  - unfold Int.in_range, Int.min_value, Int.max_value. cbn. lia.
  - unfold Int.in_range, Int.min_value, Int.max_value. cbn. lia.
  - unfold Int.in_range, Int.min_value, Int.max_value. cbn. lia.
  - cbn. lia.
  - cbn. lia.
  - cbn. lia.
Defined.



(* ================================================================== *)
(** * The further properties at work *)

Lemma flatRange_noOverflow : AnyRange.noOverflow MirrorScene.flatRange.
Proof.
  unfold AnyRange.noOverflow, Int.in_range, Int.min_value, Int.max_value,
    MirrorScene.flatRange.
  cbn [Vec2iRange.m_min Vec2iRange.m_max i0 i1]. lia.
Defined.

Lemma flatRange_distinct :
  Vec2iRange.m_min MirrorScene.flatRange <> Vec2iRange.m_max MirrorScene.flatRange.
Proof. intros H. discriminate H. Defined.

(** A range without width is gone through along one column. *)
Lemma any_range_iteration_witness :
  Vec2iRange.elements 4 MirrorScene.flatRange = Some [mkVec2i 0 0; mkVec2i 0 1; mkVec2i 0 2].
Proof.
  exact (proj1 (any_range_iteration MirrorScene.flatRange flatRange_noOverflow
                                    flatRange_distinct) 4%nat (le_n 4)).
Defined.

Lemma iteration_empty_iff_witness :
  hd_error [mkVec2i 0 0; mkVec2i 0 1; mkVec2i 0 2] = Some (mkVec2i 0 0).
Proof.
  exact (proj1 (proj2 (iteration_empty_iff MirrorScene.flatRange 4
                         [mkVec2i 0 0; mkVec2i 0 1; mkVec2i 0 2] eq_refl))
               flatRange_distinct).
Defined.

Lemma two_in_budget : 0 <= 2 <= Int.max_value.
Proof. unfold Int.max_value. lia. Defined.

Lemma calls_within_budget_witness :
  exists calls,
    runCalls TestScene.env 5 TestScene.rayDown 2 [TestScene.nearFloor] 0%nat = Some calls /\
    exists scans : nat,
      Z.of_nat scans <= 2 /\
      List.length (hitAnswers calls) = (scans * 1)%nat /\
      (List.length (scatterAnswers calls) <= scans <= S (List.length (scatterAnswers calls)))%nat.
Proof.
  destruct (runCalls TestScene.env 5 TestScene.rayDown 2 [TestScene.nearFloor] 0%nat)
    as [calls|] eqn:E; [|vm_compute in E; discriminate].
  exists calls. split; [reflexivity|].
  exact (proj1 (calls_within_budget TestScene.env 5 TestScene.rayDown 2 [TestScene.nearFloor]
                                    0%nat calls two_in_budget E)).
Defined.

Lemma box_alwaysHit (env : Collaborators TestScene.World TestScene.MaterialPtr) :
  alwaysHit env [TestScene.box].
Proof. intros i_ray w. reflexivity. Defined.

Lemma mirror_alwaysScatters : alwaysScatters MirrorScene.env.
Proof. intros p i_ray h w. reflexivity. Defined.

Lemma scattering_scene_uses_whole_budget_witness :
  ComputeRayColor MirrorScene.env 2 TestScene.rayDown 2 [TestScene.box] 0%nat = None.
Proof.
  exact (proj1 (scattering_scene_uses_whole_budget MirrorScene.env 2 TestScene.rayDown 2
                  [TestScene.box] 0%nat (box_alwaysHit MirrorScene.env)
                  mirror_alwaysScatters two_in_budget)
               (le_n 2)).
Defined.

Lemma objectOfRoots_keeps (roots : Ray -> list (HitRecord TestScene.MaterialPtr)) :
  keepsRecordOnMiss (TestScene.objectOfRoots roots).
Proof.
  intros i_ray rg o_record w. unfold TestScene.objectOfRoots. cbn [Hit fst snd].
  destruct (nearestRoot (roots i_ray) rg); [discriminate|reflexivity].
Defined.

Lemma scan_record_is_tracked_hit_witness :
  objectHit (fst (scan TestScene.env TestScene.rayDown
                       [TestScene.farFloor; TestScene.nearFloor] 0%nat)) = true /\
  nearestHitMagnitude (fst (scan TestScene.env TestScene.rayDown
                                 [TestScene.farFloor; TestScene.nearFloor] 0%nat)) =
  m_magnitude (record (fst (scan TestScene.env TestScene.rayDown
                                 [TestScene.farFloor; TestScene.nearFloor] 0%nat))).
Proof.
  split; [reflexivity|].
  refine (proj1 (proj1 (proj2 (scan_record_is_tracked_hit TestScene.env TestScene.rayDown
                    [TestScene.farFloor; TestScene.nearFloor] 0%nat _)) eq_refl)).
  intros o [<-|[<-|[]]]; apply objectOfRoots_keeps.
Defined.

Lemma test_numberAttenuations : numberAttenuations TestScene.env.
Proof. intros [|] i_ray h w; reflexivity. Defined.

Lemma closed_scene_is_black_witness :
  exists c w',
    ComputeRayColor TestScene.env 5 TestScene.rayDown 2 [TestScene.box] 0%nat = Some (c, w') /\
    zeroColor c = true.
Proof.
  destruct (ComputeRayColor TestScene.env 5 TestScene.rayDown 2 [TestScene.box] 0%nat)
    as [[c w']|] eqn:E; [|vm_compute in E; discriminate].
  exists c, w'. split; [reflexivity|].
  exact (closed_scene_is_black TestScene.env 5 TestScene.rayDown 2 [TestScene.box] 0%nat c w'
                               (box_alwaysHit TestScene.env) test_numberAttenuations E).
Defined.

Lemma vertical_background (r : Ray) :
  MirrorScene.vertical r -> unitColor (backgroundColor TestScene.env r) = true.
Proof.
  destruct r as [o d]. unfold MirrorScene.vertical. cbn [Direction].
  intros [->| ->]; vm_compute; reflexivity.
Defined.

Lemma vertical_scatter (p : TestScene.MaterialPtr) (r : Ray)
      (h : HitRecord TestScene.MaterialPtr) (u : TestScene.World) (a : Vec3f) (s : Ray)
      (u' : TestScene.World) :
  MirrorScene.vertical r ->
  Scatter (material_at TestScene.env p) r h u = (true, a, s, u') ->
  unitColor a = true /\ MirrorScene.vertical s.
Proof.
  intros _. destruct p; cbn [material_at TestScene.env Scatter TestScene.reflector
                             TestScene.absorber]; intros [= <- <- _].
  split; [vm_compute; reflexivity|left; reflexivity].
Defined.

Lemma color_stays_in_unit_cube_witness :
  exists c w',
    ComputeRayColor TestScene.env 5 TestScene.rayDown 2 [TestScene.nearFloor] 0%nat
    = Some (c, w') /\
    unitColor c = true.
Proof.
  destruct (ComputeRayColor TestScene.env 5 TestScene.rayDown 2 [TestScene.nearFloor] 0%nat)
    as [[c w']|] eqn:E; [|vm_compute in E; discriminate].
  exists c, w'. split; [reflexivity|].
  exact (color_stays_in_unit_cube TestScene.env MirrorScene.vertical 5 TestScene.rayDown 2
           [TestScene.nearFloor] 0%nat c w' vertical_background vertical_scatter
           (or_intror eq_refl) E).
Defined.

Lemma test_image_width : 0 < img_width (newImage TestScene.platform 2 1) <= Int.max_value.
Proof. unfold Int.max_value. cbn. lia. Defined.

Lemma test_image_height : 0 < img_height (newImage TestScene.platform 2 1) <= Int.max_value.
Proof. unfold Int.max_value. cbn. lia. Defined.

Lemma render_writes_the_extent_witness :
  exists image' w',
    render TestScene.env TestScene.platform 10 2 1 1 2
           (newCamera TestScene.platform TestScene.two) (mainScene TestScene.platform)
           (newImage TestScene.platform 2 1) 0%nat = Some (image', w') /\
    img_width image' = 2 /\ img_height image' = 1.
Proof.
  destruct (render TestScene.env TestScene.platform 10 2 1 1 2
                   (newCamera TestScene.platform TestScene.two) (mainScene TestScene.platform)
                   (newImage TestScene.platform 2 1) 0%nat)
    as [[image' w']|] eqn:E; [|vm_compute in E; discriminate].
  exists image', w'. split; [reflexivity|].
  pose proof (render_writes_the_extent TestScene.env TestScene.platform 10 2 1 1 2
                (newCamera TestScene.platform TestScene.two) (mainScene TestScene.platform)
                (newImage TestScene.platform 2 1) image' 0%nat w'
                test_image_width test_image_height E) as (Hw & Hh & _).
  split; [exact Hw|exact Hh].
Defined.


(** No sample and a negative bounce limit: the picture is uniform and no
    random number is drawn. *)
Lemma no_samples_uniform_picture_witness :
  exists image',
    render TestScene.env TestScene.platform 3 2 1 0 (-1)
           (newCamera TestScene.platform TestScene.two) (mainScene TestScene.platform)
           (newImage TestScene.platform 2 1) 0%nat = Some (image', 0%nat) /\
    pixelAt image' 1 0 = finalize TestScene.platform 0 TestScene.zeroVec.
Proof.
  destruct (no_samples_uniform_picture TestScene.env TestScene.platform 3 2 1 0 (-1)
              (newCamera TestScene.platform TestScene.two) (mainScene TestScene.platform)
              (newImage TestScene.platform 2 1) 0%nat ltac:(lia)
              test_image_width test_image_height (le_n 3))
    as (image' & Hrun & Hpix).
  exists image'. split; [exact Hrun|].
  apply (proj1 (Hpix 1 0)). cbn. lia.
Defined.
